(** * An R-tree over geographic points: model and verification

    This development embeds [code_v2_linear_square.py] (classes [Point],
    [MBR], [RTreeNode] and [RTree]) and the brute-force scan of
    [linear_search.py].

    Modelling choices, all of them visible in the definitions below.

    - Python [float]s are the carrier of an arithmetic interface [Num]
      (comparisons, the four operations, integer literals).  The tree code
      is written once over that interface and is run on two instances:
      the rationals [Q], where everything computes, and the reals [R],
      where [math.sin], [math.cos], [math.asin], [math.sqrt] and
      [math.radians] exist.  NaN and the infinities are not numbers of the
      model; the two sentinels [float('inf')] and [-float('inf')] of the
      source are the [None] of an [option].
    - A Python exception is the [Raise] of an error monad.
    - A node object is a value of [RTreeNode].  The [parent] reference of
      a node is the [path] that leads to it: the list of the ancestors,
      nearest first, each with a hole where the node sits.  [parent is
      None] is the empty path.  Mutating a node in place and leaving its
      ancestors untouched is [plug]ging the new node into the old path. *)

From Stdlib Require Import List Bool Arith ZArith Lia.
From Stdlib Require String.
From Stdlib Require Import QArith Qminmax.
From Stdlib Require Import Reals Lra.
From Stdlib Require Import Permutation Sorted.
Import ListNotations.

Set Warnings "-register-all".

Close Scope R_scope.
Close Scope Q_scope.
Close Scope Z_scope.
Open Scope nat_scope.
Open Scope list_scope.

(** ** Exceptions *)

Inductive exn : Set :=
| AttributeError
| IndexError
| ValueError
| ZeroDivisionError.

Inductive result (A : Type) : Type :=
| Ok (a : A)
| Raise (e : exn).

Arguments Ok {A} a.
Arguments Raise {A} e.

Definition bind {A B : Type} (c : result A) (k : A -> result B) : result B :=
  match c with
  | Ok a => k a
  | Raise e => Raise e
  end.

Notation "x <- c1 ;; c2" := (bind c1 (fun x => c2))
  (at level 61, c1 at next level, right associativity).
Notation "' pat <- c1 ;; c2" :=
  (bind c1 (fun x => match x with pat => c2 end))
  (at level 61, pat pattern, c1 at next level, right associativity).

Definition is_ok {A : Type} (c : result A) : bool :=
  match c with Ok _ => true | Raise _ => false end.

(** [l[i]] of Python for [0 <= i]: [IndexError] out of range. *)
Definition item {A : Type} (l : list A) (i : nat) : result A :=
  match nth_error l i with
  | Some a => Ok a
  | None => Raise IndexError
  end.

(** ** Arithmetic of the floats *)

Class Num : Type := {
  float : Type;
  flt : float -> float -> bool;
  fle : float -> float -> bool;
  feq : float -> float -> bool;
  fadd : float -> float -> float;
  fsub : float -> float -> float;
  fmul : float -> float -> float;
  fdiv : float -> float -> float;
  fconst : Z -> float
}.

Declare Scope num_scope.
Delimit Scope num_scope with num.
Notation "a <? b" := (flt a b) (at level 70, no associativity) : num_scope.
Notation "a <=? b" := (fle a b) (at level 70, no associativity) : num_scope.
Notation "a =? b" := (feq a b) (at level 70, no associativity) : num_scope.
Notation "a >? b" := (flt b a) (at level 70, no associativity) : num_scope.
Notation "a + b" := (fadd a b) : num_scope.
Notation "a - b" := (fsub a b) : num_scope.
Notation "a * b" := (fmul a b) : num_scope.
Notation "a / b" := (fdiv a b) : num_scope.

(** The functions of the [math] module that the source calls. *)
Class Math (F : Num) : Type := {
  math_sin : float -> float;
  math_cos : float -> float;
  math_asin : float -> float;
  math_sqrt : float -> float;
  math_radians : float -> float
}.

(** What the proofs about ordering use: the comparisons are those of one
    total preorder. *)
Class NumOrder (F : Num) : Prop := {
  flt_fle : forall a b : float, flt a b = negb (fle b a);
  fle_total : forall a b : float, fle a b = true \/ fle b a = true;
  fle_trans : forall a b c : float,
      fle a b = true -> fle b c = true -> fle a c = true;
  feq_fle : forall a b : float, feq a b = fle a b && fle b a
}.

(** *** The rationals *)

Definition Qlt_bool (a b : Q) : bool :=
  match Qcompare a b with Lt => true | _ => false end.

#[export] Instance QNum : Num := {|
  float := Q;
  flt := Qlt_bool;
  fle := Qle_bool;
  feq := Qeq_bool;
  fadd := Qplus;
  fsub := Qminus;
  fmul := Qmult;
  fdiv := Qdiv;
  fconst := inject_Z
|}.

(** *** The reals *)

Definition Rlt_bool (a b : R) : bool := if Rlt_dec a b then true else false.
Definition Rle_bool (a b : R) : bool := if Rle_dec a b then true else false.
Definition Req_bool (a b : R) : bool := if Req_dec_T a b then true else false.

#[export] Instance RNum : Num := {|
  float := R;
  flt := Rlt_bool;
  fle := Rle_bool;
  feq := Req_bool;
  fadd := Rplus;
  fsub := Rminus;
  fmul := Rmult;
  fdiv := Rdiv;
  fconst := IZR
|}.

#[export] Instance RMath : Math RNum := {|
  math_sin := sin;
  math_cos := cos;
  math_asin := asin;
  math_sqrt := sqrt;
  math_radians := fun x => (x * PI / 180)%R
|}.

(** ** Geometry: [Point] and [MBR] *)

Section Geometry.

Context {F : Num}.
Local Open Scope num_scope.

(** [min(a, b)] and [max(a, b)] of Python keep the first argument unless
    the second is strictly better. *)
Definition py_min (a b : float) : float := if b <? a then b else a.
Definition py_max (a b : float) : float := if b >? a then b else a.

(** [min(iterable)] and [max(iterable)]: [ValueError] on an empty one. *)
Definition py_min_of (l : list float) : result float :=
  match l with
  | [] => Raise ValueError
  | x :: rest => Ok (fold_left py_min rest x)
  end.

Definition py_max_of (l : list float) : result float :=
  match l with
  | [] => Raise ValueError
  | x :: rest => Ok (fold_left py_max rest x)
  end.

Record Point : Type := {
  lat : float;
  lon : float;
  data : list (String.string * String.string)
}.

Record MBR : Type := {
  min_lat : float;
  max_lat : float;
  min_lon : float;
  max_lon : float
}.

Definition area (self : MBR) : float :=
  (max_lat self - min_lat self) * (max_lon self - min_lon self).

Definition contains_point (self : MBR) (point : Point) : bool :=
  ((min_lat self <=? lat point) && (lat point <=? max_lat self))
  && ((min_lon self <=? lon point) && (lon point <=? max_lon self)).

Definition intersects_square (self : MBR)
  (center_lat center_lon half_side_lat half_side_lon : float) : bool :=
  let square_min_lat := center_lat - half_side_lat in
  let square_max_lat := center_lat + half_side_lat in
  let square_min_lon := center_lon - half_side_lon in
  let square_max_lon := center_lon + half_side_lon in
  if max_lat self <? square_min_lat then false
  else if min_lat self >? square_max_lat then false
  else if max_lon self <? square_min_lon then false
  else if min_lon self >? square_max_lon then false
  else true.

Definition expand_to_include (self : MBR) (point : Point) : MBR :=
  {| min_lat := py_min (min_lat self) (lat point);
     max_lat := py_max (max_lat self) (lat point);
     min_lon := py_min (min_lon self) (lon point);
     max_lon := py_max (max_lon self) (lon point) |}.

Definition expand_to_include_mbr (self other : MBR) : MBR :=
  {| min_lat := py_min (min_lat self) (min_lat other);
     max_lat := py_max (max_lat self) (max_lat other);
     min_lon := py_min (min_lon self) (min_lon other);
     max_lon := py_max (max_lon self) (max_lon other) |}.

Definition from_point (point : Point) : MBR :=
  {| min_lat := lat point; max_lat := lat point;
     min_lon := lon point; max_lon := lon point |}.

(** [Point.distance_to]: the haversine formula, Earth radius 6371 km.
    [x**2] is [x * x]. *)
Definition distance_to {M : Math F} (self other : Point) : float :=
  let R := fconst 6371 in
  let lat1 := math_radians (lat self) in
  let lon1 := math_radians (lon self) in
  let lat2 := math_radians (lat other) in
  let lon2 := math_radians (lon other) in
  let dlat := lat2 - lat1 in
  let dlon := lon2 - lon1 in
  let sdlat := math_sin (dlat / fconst 2) in
  let sdlon := math_sin (dlon / fconst 2) in
  let a := sdlat * sdlat + math_cos lat1 * math_cos lat2 * (sdlon * sdlon) in
  let c := fconst 2 * math_asin (math_sqrt a) in
  R * c.

End Geometry.

(** ** Nodes, paths and the tree *)

Section Tree.

Context {F : Num}.
Local Open Scope num_scope.

(** [RTreeNode]: [is_leaf] selects the constructor, and with it what the
    entries carry (points in a leaf, child nodes otherwise).  [mbr] is the
    cached rectangle, [None] until the first [update_mbr]. *)
Inductive RTreeNode : Type :=
| Leaf (mbr : option MBR) (entries : list (MBR * Point))
| Internal (mbr : option MBR) (entries : list (MBR * RTreeNode)).

Definition is_leaf (node : RTreeNode) : bool :=
  match node with Leaf _ _ => true | Internal _ _ => false end.

Definition node_mbr (node : RTreeNode) : option MBR :=
  match node with Leaf m _ => m | Internal m _ => m end.

Definition entry_count (node : RTreeNode) : nat :=
  match node with
  | Leaf _ entries => length entries
  | Internal _ entries => length entries
  end.

(** [RTreeNode.update_mbr]: the value it stores in [self.mbr]. *)
Definition update_mbr {A : Type} (entries : list (MBR * A)) : option MBR :=
  match entries with
  | [] => None
  | first :: rest =>
      Some (fold_left (fun mbr e => expand_to_include_mbr mbr (fst e))
                      rest (fst first))
  end.

(** An ancestor with a hole: its cached rectangle, the entries before the
    hole, the rectangle stored in the entry of the hole, the entries
    after. *)
Record frame : Type := {
  f_mbr : option MBR;
  f_before : list (MBR * RTreeNode);
  f_entry_mbr : MBR;
  f_after : list (MBR * RTreeNode)
}.

Definition path : Type := list frame.

Definition fill (fr : frame) (node : RTreeNode) : RTreeNode :=
  Internal (f_mbr fr) (f_before fr ++ (f_entry_mbr fr, node) :: f_after fr).

(** The root above a node: follow [parent] until it is [None]. *)
Fixpoint plug (node : RTreeNode) (up : path) : RTreeNode :=
  match up with
  | [] => node
  | fr :: up' => plug (fill fr node) up'
  end.

Record RTree : Type := {
  max_entries : Z;
  min_entries : Z;
  root : RTreeNode
}.

Definition RTree__init__ (max_entries : Z) : RTree :=
  {| max_entries := max_entries;
     min_entries := Z.max 2 (max_entries / 2);
     root := Leaf None [] |}.

Definition default_max_entries : Z := 5.

Definition set_root (self : RTree) (node : RTreeNode) : RTree :=
  {| max_entries := max_entries self;
     min_entries := min_entries self;
     root := node |}.

(** *** [_choose_leaf] *)

(** [x < bound] and [x == bound] where [bound] starts as [float('inf')]. *)
Definition lt_inf (x : float) (bound : option float) : bool :=
  match bound with None => true | Some y => x <? y end.

Definition eq_inf (x : float) (bound : option float) : bool :=
  match bound with None => false | Some y => x =? y end.

Definition enlargement (entry_mbr mbr : MBR) : float :=
  area (expand_to_include_mbr entry_mbr mbr) - area entry_mbr.

(** The loop of [_choose_leaf] over [node.entries].  The state is
    [(best_entry, min_enlargement, min_area)]; [best_entry] is kept as the
    position of the entry. *)
Definition choose_state : Type := (option nat * option float * option float)%type.

Definition choose_step (mbr : MBR) (st : choose_state) (i : nat)
  (entry_mbr : MBR) : choose_state :=
  let '(best_entry, min_enlargement, min_area) := st in
  let enl := enlargement entry_mbr mbr in
  if lt_inf enl min_enlargement
     || (eq_inf enl min_enlargement && lt_inf (area entry_mbr) min_area)
  then (Some i, Some enl, Some (area entry_mbr))
  else st.

Fixpoint choose_loop {A : Type} (mbr : MBR) (entries : list (MBR * A))
  (i : nat) (st : choose_state) : choose_state :=
  match entries with
  | [] => st
  | e :: rest => choose_loop mbr rest (S i) (choose_step mbr st i (fst e))
  end.

Definition best_entry {A : Type} (entries : list (MBR * A)) (mbr : MBR)
  : option nat :=
  fst (fst (choose_loop mbr entries 0 (None, None, None))).

(** [_choose_leaf node mbr], [node] being reached through [up]: the leaf
    (its cached rectangle and entries) and the path to it.  With no entry
    to choose [best_entry] is [None] and the recursive call raises. *)
Fixpoint _choose_leaf (node : RTreeNode) (up : path) (mbr : MBR)
  : result (option MBR * list (MBR * Point) * path) :=
  match node with
  | Leaf m entries => Ok (m, entries, up)
  | Internal m entries =>
      match best_entry entries mbr with
      | None => Raise AttributeError
      | Some i =>
          (fix descend (before rest : list (MBR * RTreeNode)) (k : nat)
               {struct rest} :=
             match rest with
             | [] => Raise AttributeError
             | (b, child) :: after =>
                 match k with
                 | O => _choose_leaf child
                          ({| f_mbr := m; f_before := before;
                              f_entry_mbr := b; f_after := after |} :: up)
                          mbr
                 | S k' => descend (before ++ [(b, child)]) after k'
                 end
             end) [] entries i
      end
  end.

(** *** [_linear_pick_seeds] *)

(** [separation > max_separation], the latter starting as
    [-float('inf')]. *)
Definition gt_neg_inf (x : float) (bound : option float) : bool :=
  match bound with None => true | Some y => x >? y end.

Definition seed_state : Type := (option float * (nat * nat))%type.

(** The inner [for i, (mbr, _) in enumerate(entries)] on one axis, [lo]
    and [hi] being the two fields of that axis. *)
Fixpoint seed_scan {A : Type} (lo hi : MBR -> float)
  (max_of_min min_of_max : float) (entries : list (MBR * A)) (i : nat)
  (seeds : nat * nat) : nat * nat :=
  match entries with
  | [] => seeds
  | e :: rest =>
      let seed1_idx := if lo (fst e) =? max_of_min then i else fst seeds in
      let seed2_idx := if hi (fst e) =? min_of_max then i else snd seeds in
      seed_scan lo hi max_of_min min_of_max rest (S i) (seed1_idx, seed2_idx)
  end.

(** One round of [for dim in ['lat', 'lon']]. *)
Definition pick_on_axis {A : Type} (lo hi : MBR -> float)
  (entries : list (MBR * A)) (st : seed_state) : result seed_state :=
  let '(max_separation, seeds) := st in
  min_of_max <- py_min_of (map (fun e => hi (fst e)) entries) ;;
  max_of_min <- py_max_of (map (fun e => lo (fst e)) entries) ;;
  overall_min <- py_min_of (map (fun e => lo (fst e)) entries) ;;
  overall_max <- py_max_of (map (fun e => hi (fst e)) entries) ;;
  let width := overall_max - overall_min in
  if width >? fconst 0 then
    let separation := (max_of_min - min_of_max) / width in
    if gt_neg_inf separation max_separation then
      Ok (Some separation,
          seed_scan lo hi max_of_min min_of_max entries 0 seeds)
    else Ok st
  else Ok st.

Definition _linear_pick_seeds {A : Type} (entries : list (MBR * A))
  : result (nat * nat) :=
  let n := length entries in
  let st0 : seed_state := (None, (0, if (1 <? n)%nat then 1 else 0)) in
  st1 <- pick_on_axis min_lat max_lat entries st0 ;;
  st2 <- pick_on_axis min_lon max_lon entries st1 ;;
  let '(_, (seed1_idx, seed2_idx)) := st2 in
  if (seed1_idx =? seed2_idx)%nat && (1 <? n)%nat
  then Ok (seed1_idx, (seed1_idx + 1) mod n)
  else Ok (seed1_idx, seed2_idx).

(** *** [_split_node] *)

(** [[e for i, e in enumerate(entries) if i != seed1_idx and i != seed2_idx]] *)
Definition remaining_entries {A : Type} (entries : list (MBR * A))
  (seed1_idx seed2_idx : nat) : list (MBR * A) :=
  map snd
    (filter (fun ie => negb (fst ie =? seed1_idx)%nat
                       && negb (fst ie =? seed2_idx)%nat)
            (combine (seq 0 (length entries)) entries)).

(** The loop [for entry in remaining]; [entries1] and [entries2] are the
    entries of [node1] and [node2]. *)
Fixpoint distribute {A : Type} (remaining entries1 entries2 : list (MBR * A))
  : result (list (MBR * A) * list (MBR * A)) :=
  match remaining with
  | [] => Ok (entries1, entries2)
  | entry :: rest =>
      match update_mbr entries1, update_mbr entries2 with
      | Some mbr1, Some mbr2 =>
          let mbr := fst entry in
          let enlargement1 := enlargement mbr1 mbr in
          let enlargement2 := enlargement mbr2 mbr in
          let to_node1 :=
            if enlargement1 <? enlargement2 then true
            else if enlargement2 <? enlargement1 then false
            else if area mbr1 <? area mbr2 then true
            else if area mbr2 <? area mbr1 then false
            else (length entries1 <=? length entries2)%nat in
          if to_node1
          then distribute rest (entries1 ++ [entry]) entries2
          else distribute rest entries1 (entries2 ++ [entry])
      | _, _ => Raise AttributeError
      end
  end.

Definition split_entries {A : Type} (entries : list (MBR * A))
  : result (list (MBR * A) * list (MBR * A)) :=
  '(seed1_idx, seed2_idx) <- _linear_pick_seeds entries ;;
  seed1 <- item entries seed1_idx ;;
  seed2 <- item entries seed2_idx ;;
  distribute (remaining_entries entries seed1_idx seed2_idx) [seed1] [seed2].

Definition _split_node (node : RTreeNode) : result (RTreeNode * RTreeNode) :=
  match node with
  | Leaf _ entries =>
      '(entries1, entries2) <- split_entries entries ;;
      Ok (Leaf (update_mbr entries1) entries1,
          Leaf (update_mbr entries2) entries2)
  | Internal _ entries =>
      '(entries1, entries2) <- split_entries entries ;;
      Ok (Internal (update_mbr entries1) entries1,
          Internal (update_mbr entries2) entries2)
  end.

(** *** [_handle_overflow] and [insert] *)

Definition overflows (self_max_entries : Z) (n : nat) : bool :=
  (Z.of_nat n >? self_max_entries)%Z.

(** An entry [(node.mbr, node)]; a rectangle that is still [None] makes
    the [update_mbr] that follows raise. *)
Definition entry_for (node : RTreeNode) : result (MBR * RTreeNode) :=
  match node_mbr node with
  | Some m => Ok (m, node)
  | None => Raise AttributeError
  end.

(** [_handle_overflow node], [node] being reached through [up]; the result
    is [self.root] when the call returns. *)
Fixpoint _handle_overflow (self_max_entries : Z) (node : RTreeNode)
  (up : path) : result RTreeNode :=
  '(node1, node2) <- _split_node node ;;
  entry1 <- entry_for node1 ;;
  entry2 <- entry_for node2 ;;
  match up with
  | [] =>
      let entries := [entry1; entry2] in
      Ok (Internal (update_mbr entries) entries)
  | parent :: up' =>
      let new_entries := f_before parent ++ f_after parent in
      let entries := new_entries ++ [entry1; entry2] in
      let parent' := Internal (update_mbr entries) entries in
      if overflows self_max_entries (length entries)
      then _handle_overflow self_max_entries parent' up'
      else Ok (plug parent' up')
  end.

Definition insert (self : RTree) (point : Point) : result RTree :=
  let mbr := from_point point in
  '(_, leaf_entries, up) <- _choose_leaf (root self) [] mbr ;;
  let entries := leaf_entries ++ [(mbr, point)] in
  let leaf := Leaf (update_mbr entries) entries in
  if overflows (max_entries self) (length entries)
  then
    new_root <- _handle_overflow (max_entries self) leaf up ;;
    Ok (set_root self new_root)
  else Ok (set_root self (plug leaf up)).

(** The loop of [main]: [for item in data: rtree.insert(point)]. *)
Fixpoint insert_all (self : RTree) (points : list Point) : result RTree :=
  match points with
  | [] => Ok self
  | point :: rest =>
      self' <- insert self point ;;
      insert_all self' rest
  end.

End Tree.

(** ** Search and diagnostics *)

Section Search.

Context {F : Num}.
Local Open Scope num_scope.

(** [list.sort(key=lambda x: x[1])]: the sort is stable and compares keys
    with [<] only.  It is modelled by the stable insertion sort; on a
    total preorder every stable sort returns the same list. *)
Fixpoint sort_insert (x : Point * float) (l : list (Point * float))
  : list (Point * float) :=
  match l with
  | [] => [x]
  | y :: l' => if snd y <? snd x then y :: sort_insert x l' else x :: l
  end.

Fixpoint sort_by_distance (l : list (Point * float)) : list (Point * float) :=
  match l with
  | [] => []
  | x :: l' => sort_insert x (sort_by_distance l')
  end.

Context {M : Math F}.

(** The leaf branch of [_search_square_recursive]: the entries whose point
    lies in the closed square, with their distance, in entry order. *)
Definition in_square (point : Point)
  (center_lat center_lon half_side_lat half_side_lon : float) : bool :=
  let square_min_lat := center_lat - half_side_lat in
  let square_max_lat := center_lat + half_side_lat in
  let square_min_lon := center_lon - half_side_lon in
  let square_max_lon := center_lon + half_side_lon in
  ((square_min_lat <=? lat point) && (lat point <=? square_max_lat))
  && ((square_min_lon <=? lon point) && (lon point <=? square_max_lon)).

Definition scan_leaf (entries : list (MBR * Point))
  (center_lat center_lon half_side_lat half_side_lon : float)
  (center_point : Point) (results : list (Point * float))
  : list (Point * float) :=
  fold_left
    (fun results e =>
       let point := snd e in
       if in_square point center_lat center_lon half_side_lat half_side_lon
       then results ++ [(point, distance_to center_point point)]
       else results)
    entries results.

(** [_search_square_recursive]: [results] is the list the source appends
    to; the value is that list when the call returns. *)
Fixpoint _search_square_recursive (node : RTreeNode)
  (center_lat center_lon half_side_lat half_side_lon : float)
  (center_point : Point) (results : list (Point * float))
  : list (Point * float) :=
  match node_mbr node with
  | None => results
  | Some mbr =>
      if negb (intersects_square mbr center_lat center_lon
                                 half_side_lat half_side_lon)
      then results
      else
        match node with
        | Leaf _ entries =>
            scan_leaf entries center_lat center_lon half_side_lat
                      half_side_lon center_point results
        | Internal _ entries =>
            fold_left
              (fun results e =>
                 _search_square_recursive (snd e) center_lat center_lon
                   half_side_lat half_side_lon center_point results)
              entries results
        end
  end.

(** [search_square].  Dividing by a zero float raises
    [ZeroDivisionError]; [111.0] is not zero. *)
Definition search_square (self : RTree) (center : Point) (radius_km : float)
  : result (list (Point * float)) :=
  let half_side_lat := radius_km / fconst 111 in
  let denom := fconst 111 * math_cos (math_radians (lat center)) in
  if denom =? fconst 0 then Raise ZeroDivisionError
  else
    let half_side_lon := radius_km / denom in
    let candidates :=
      _search_square_recursive (root self) (lat center) (lon center)
        half_side_lat half_side_lon center [] in
    let results := filter (fun pd => snd pd <=? radius_km) candidates in
    Ok (sort_by_distance results).

(** The brute-force scan, as in the loop of [linear_search.py]: the
    distance to every point, those within the radius kept in input order,
    then the same sort by distance.  ([linear_search.py] writes the
    haversine formula with [atan2] where [Point.distance_to] has [asin];
    the scan is taken here with [distance_to].) *)
Definition linear_scan (points : list Point) (center : Point)
  (radius_km : float) : list (Point * float) :=
  sort_by_distance
    (filter (fun pd => snd pd <=? radius_km)
            (map (fun point => (point, distance_to center point)) points)).

End Search.

Section Diagnostics.

Context {F : Num}.

(** The dictionary of [count_nodes]. *)
Record counts : Type := {
  leaf : nat;
  internal : nat;
  total_entries : nat
}.

Fixpoint _count_recursive (node : RTreeNode) (c : counts) : counts :=
  match node with
  | Leaf _ entries =>
      {| leaf := leaf c + 1;
         internal := internal c;
         total_entries := total_entries c + length entries |}
  | Internal _ entries =>
      fold_left (fun c e => _count_recursive (snd e) c) entries
        {| leaf := leaf c;
           internal := internal c + 1;
           total_entries := total_entries c |}
  end.

Definition count_nodes (self : RTree) : counts :=
  _count_recursive (root self)
    {| leaf := 0; internal := 0; total_entries := 0 |}.

Fixpoint _get_height_recursive (node : RTreeNode) : nat :=
  match node with
  | Leaf _ _ => 1
  | Internal _ [] => 1
  | Internal _ entries =>
      1 + fold_right Nat.max 0
            (map (fun e => _get_height_recursive (snd e)) entries)
  end.

Definition get_height (self : RTree) : nat :=
  _get_height_recursive (root self).

End Diagnostics.

(** * Notions used by the statements *)

(** A list with the position [k] taken out. *)
Definition split_at {A : Type} (l : list A) (k : nat)
  : option (list A * A * list A) :=
  match nth_error l k with
  | Some a => Some (firstn k l, a, skipn (S k) l)
  | None => None
  end.


(** The test of the comprehension that builds [remaining]. *)
Definition keep_index {A : Type} (s1 s2 : nat) (ie : nat * A) : bool :=
  negb (fst ie =? s1) && negb (fst ie =? s2).

Section Notions.

Context {F : Num}.

(** The points stored below a node, in the order a depth-first walk of
    the entries meets them. *)
Fixpoint leaf_points (node : RTreeNode) : list Point :=
  match node with
  | Leaf _ entries => map snd entries
  | Internal _ entries => flat_map (fun e => leaf_points (snd e)) entries
  end.

(** [p] holds of a node and of every node below it. *)
Fixpoint every_node (p : RTreeNode -> bool) (node : RTreeNode) : bool :=
  p node &&
  match node with
  | Leaf _ _ => true
  | Internal _ entries => forallb (fun e => every_node p (snd e)) entries
  end.

(** The depth of every leaf below a node, the node itself being at 0. *)
Fixpoint leaf_depths (node : RTreeNode) : list nat :=
  match node with
  | Leaf _ _ => [0]
  | Internal _ entries =>
      map S (flat_map (fun e => leaf_depths (snd e)) entries)
  end.

(** All leaves [h] levels below the node, no internal node empty. *)
Inductive uniform : nat -> RTreeNode -> Prop :=
| uniform_leaf m entries : uniform 0 (Leaf m entries)
| uniform_internal h m entries :
    entries <> [] ->
    Forall (fun e => uniform h (snd e)) entries ->
    uniform (S h) (Internal m entries).

(** The same along a path: the siblings met on the way up. *)
Inductive uniform_path : nat -> path -> Prop :=
| uniform_root h : uniform_path h []
| uniform_frame h fr up :
    Forall (fun e => uniform h (snd e)) (f_before fr ++ f_after fr) ->
    uniform_path (S h) up ->
    uniform_path h (fr :: up).

(** A cached rectangle covers a list of points. *)
Definition covers (mbr : option MBR) (points : list Point) : bool :=
  match mbr with
  | Some m => forallb (contains_point m) points
  | None => match points with [] => true | _ :: _ => false end
  end.

Definition mbr_covers_subtree (node : RTreeNode) : bool :=
  covers (node_mbr node) (leaf_points node).

(** The tree with another value in its [min_entries] field. *)
Definition set_min_entries (self : RTree) (m : Z) : RTree :=
  {| max_entries := max_entries self;
     min_entries := m;
     root := root self |}.

Definition within_capacity (self_max_entries : Z) (node : RTreeNode) : bool :=
  (Z.of_nat (entry_count node) <=? self_max_entries)%Z.

End Notions.

(** What [split_entries] guarantees about the two halves. *)
Definition split_rel {A : Type} (entries entries1 entries2 : list A) : Prop :=
  entries <> [] /\ entries1 <> [] /\ entries2 <> []
  /\ (2 <= length entries -> Permutation (entries1 ++ entries2) entries)
  /\ (forall e, entries = [e] -> entries1 = [e] /\ entries2 = [e]).

Section PathNotions.

Context {F : Num}.

(** Every node hanging off a path is within capacity, and so is every
    ancestor on it. *)
Fixpoint bounded_path (self_max_entries : Z) (up : path) : Prop :=
  match up with
  | [] => True
  | fr :: up' =>
      (Z.of_nat (S (length (f_before fr ++ f_after fr)))
       <= self_max_entries)%Z
      /\ Forall (fun e => every_node (within_capacity self_max_entries)
                                     (snd e) = true)
                (f_before fr ++ f_after fr)
      /\ bounded_path self_max_entries up'
  end.

(** The points stored in the siblings along a path. *)
Fixpoint path_points (up : path) : list Point :=
  match up with
  | [] => []
  | fr :: up' =>
      flat_map (fun e => leaf_points (snd e)) (f_before fr ++ f_after fr)
      ++ path_points up'
  end.

End PathNotions.

Section ChoiceNotions.

Context {F : Num}.




End ChoiceNotions.

Section SeedNotions.

Context {F : Num}.

Inductive axis : Set := Lat | Lon.

Definition lo_of (a : axis) : MBR -> float :=
  match a with Lat => min_lat | Lon => min_lon end.

Definition hi_of (a : axis) : MBR -> float :=
  match a with Lat => max_lat | Lon => max_lon end.

(** On one axis: the greatest of the entries' minima, the least of their
    maxima, the overall width, the normalized separation. *)
Definition highest_low {A : Type} (a : axis) (entries : list (MBR * A))
  : result float :=
  py_max_of (map (fun e => lo_of a (fst e)) entries).

Definition lowest_high {A : Type} (a : axis) (entries : list (MBR * A))
  : result float :=
  py_min_of (map (fun e => hi_of a (fst e)) entries).

Definition axis_width {A : Type} (a : axis) (entries : list (MBR * A))
  : result float :=
  overall_min <- py_min_of (map (fun e => lo_of a (fst e)) entries) ;;
  overall_max <- py_max_of (map (fun e => hi_of a (fst e)) entries) ;;
  Ok (fsub overall_max overall_min).

Definition normalized_separation {A : Type} (a : axis)
  (entries : list (MBR * A)) : result float :=
  h <- highest_low a entries ;;
  l <- lowest_high a entries ;;
  w <- axis_width a entries ;;
  Ok (fdiv (fsub h l) w).

(** The axis of greatest normalized separation among those of positive
    width, latitude winning a tie; [None] when no axis has positive
    width. *)
Definition chosen_axis {A : Type} (entries : list (MBR * A))
  : result (option axis) :=
  wlat <- axis_width Lat entries ;;
  wlon <- axis_width Lon entries ;;
  slat <- normalized_separation Lat entries ;;
  slon <- normalized_separation Lon entries ;;
  Ok (if flt (fconst 0) wlat
      then if flt (fconst 0) wlon && flt slat slon then Some Lon else Some Lat
      else if flt (fconst 0) wlon then Some Lon else None).

(** The position of the last element that satisfies [p], counted from
    [i]; [d] when there is none. *)
Fixpoint last_match {A : Type} (p : A -> bool) (l : list A) (i d : nat)
  : nat :=
  match l with
  | [] => d
  | e :: rest => last_match p rest (S i) (if p e then i else d)
  end.

End SeedNotions.

Section SearchNotions.

Context {F : Num} {M : Math F}.

(** The points of a list that lie in the closed square, each with its
    distance to the centre. *)
Definition square_hits (points : list Point)
  (center_lat center_lon half_side_lat half_side_lon : float)
  (center_point : Point) : list (Point * float) :=
  map (fun point => (point, distance_to center_point point))
      (filter (fun point => in_square point center_lat center_lon
                                      half_side_lat half_side_lon)
              points).

(** Ascending order of the distances. *)
Definition by_distance (a b : Point * float) : Prop :=
  fle (snd a) (snd b) = true.

(** The half sides of the square that [search_square] computes. *)
Definition half_side_lat_of (radius_km : float) : float :=
  fdiv radius_km (fconst 111).

Definition half_side_lon_of (center : Point) (radius_km : float) : float :=
  fdiv radius_km (fmul (fconst 111) (math_cos (math_radians (lat center)))).

End SearchNotions.

(** ** Sample data on the rationals *)

Definition station (lat lon : Q) : @Point QNum :=
  @Build_Point QNum lat lon [].

(** Five stations close together, one some way off, one far away. *)
Definition seven_stations : list (@Point QNum) :=
  [station 0 0; station 1 1; station 2 2; station 3 3; station 4 4;
   station 10 10; station 20 20].

(** The first six of them: the sixth insertion splits the root. *)
Definition six_stations : list (@Point QNum) :=
  [station 0 0; station 1 1; station 2 2; station 3 3; station 4 4;
   station 10 10].

(** The entries of a leaf that holds the given stations. *)
Definition leaf_entries_of (points : list (@Point QNum))
  : list (@MBR QNum * @Point QNum) :=
  map (fun point => (from_point point, point)) points.

(** ** Sample data on the reals *)

Definition rstation (lat lon : R) : @Point RNum :=
  @Build_Point RNum lat lon [].

(** Two stations about 22 km apart on the equator, one on each side of
    the 180th meridian. *)
Definition west_of_antimeridian : @Point RNum := rstation 0 (1799 / 10)%R.
Definition east_of_antimeridian : @Point RNum := rstation 0 (- (1799 / 10))%R.

Definition two_real_stations : list (@Point RNum) :=
  [rstation 10 106; rstation 11 107].

(** * More of the code *)

Section MoreGeometry.

Context {F : Num}.
Local Open Scope num_scope.

(** [MBR.from_points]. *)
Definition from_points (points : list Point) : result MBR :=
  match points with
  | [] => Ok {| min_lat := fconst 0; max_lat := fconst 0;
                min_lon := fconst 0; max_lon := fconst 0 |}
  | _ :: _ =>
      let lats := map lat points in
      let lons := map lon points in
      a <- py_min_of lats ;;
      b <- py_max_of lats ;;
      c <- py_min_of lons ;;
      d <- py_max_of lons ;;
      Ok {| min_lat := a; max_lat := b; min_lon := c; max_lon := d |}
  end.

(** The rectangle [outer] reaches at least as far as [inner] on the four
    sides. *)
Definition encloses (outer inner : MBR) : bool :=
  ((min_lat outer <=? min_lat inner) && (max_lat inner <=? max_lat outer))
  && ((min_lon outer <=? min_lon inner) && (max_lon inner <=? max_lon outer)).

(** Minimum no greater than maximum on both axes. *)
Definition well_formed (m : MBR) : bool :=
  (min_lat m <=? max_lat m) && (min_lon m <=? max_lon m).

End MoreGeometry.

(** A rectangle on the rationals. *)
Definition box (min_lat max_lat min_lon max_lon : Q) : @MBR QNum :=
  @Build_MBR QNum min_lat max_lat min_lon max_lon.

Section NodePredicates.

Context {F : Num}.

(** [P] holds of a node and of every node below it. *)
Inductive all_nodes (P : RTreeNode -> Prop) : RTreeNode -> Prop :=
| all_nodes_leaf m entries :
    P (Leaf m entries) -> all_nodes P (Leaf m entries)
| all_nodes_internal m entries :
    P (Internal m entries) ->
    Forall (fun e => all_nodes P (snd e)) entries ->
    all_nodes P (Internal m entries).

(** The cached rectangle is what [update_mbr] computes from the entries
    the node has now. *)
Definition mbr_is_union (node : RTreeNode) : Prop :=
  match node with
  | Leaf m entries => m = update_mbr entries
  | Internal m entries => m = update_mbr entries
  end.

(** In a leaf, the rectangle of an entry is the degenerate rectangle of
    its point. *)
Definition entries_are_points (node : RTreeNode) : Prop :=
  match node with
  | Leaf _ entries => Forall (fun e => fst e = from_point (snd e)) entries
  | Internal _ _ => True
  end.

Definition tidy (node : RTreeNode) : Prop :=
  mbr_is_union node /\ entries_are_points node.

(** What the entries of a node must satisfy for the node, once its
    rectangle is recomputed, to be tidy throughout. *)
Definition inside_tidy (node : RTreeNode) : Prop :=
  match node with
  | Leaf _ entries => Forall (fun e => fst e = from_point (snd e)) entries
  | Internal _ entries => Forall (fun e => all_nodes tidy (snd e)) entries
  end.

(** The cached rectangle of a leaf contains the points of the leaf. *)
Definition leaf_covers (node : RTreeNode) : bool :=
  match node with
  | Leaf m entries => covers m (map snd entries)
  | Internal _ _ => true
  end.

End NodePredicates.

(** ** [linear_search.py], on the reals *)

(** [math.atan2(y, x)] for real arguments. *)
Definition math_atan2 (y x : R) : R :=
  if Rlt_dec 0 x then atan (y / x)
  else if Rlt_dec x 0 then
    if Rle_dec 0 y then (atan (y / x) + PI)%R else (atan (y / x) - PI)%R
  else if Rlt_dec 0 y then (PI / 2)%R
  else if Rlt_dec y 0 then (- (PI / 2))%R
  else 0%R.

(** [math.sqrt]: [ValueError] on a negative argument. *)
Definition math_sqrt_checked (x : R) : result R :=
  if Rlt_dec x 0 then Raise ValueError else Ok (sqrt x).

(** [distance_km]. *)
Definition distance_km (lat1 lon1 lat2 lon2 : R) : result R :=
  let R := 6371%R in
  let lat1_rad := (lat1 * PI / 180)%R in
  let lon1_rad := (lon1 * PI / 180)%R in
  let lat2_rad := (lat2 * PI / 180)%R in
  let lon2_rad := (lon2 * PI / 180)%R in
  let dlat := (lat2_rad - lat1_rad)%R in
  let dlon := (lon2_rad - lon1_rad)%R in
  let a := (sin (dlat / 2) * sin (dlat / 2)
            + cos lat1_rad * cos lat2_rad
              * (sin (dlon / 2) * sin (dlon / 2)))%R in
  s1 <- math_sqrt_checked a ;;
  s2 <- math_sqrt_checked (1 - a) ;;
  let c := (2 * math_atan2 s1 s2)%R in
  Ok (R * c)%R.



(** A rectangle on the reals. *)
Definition rbox (min_lat max_lat min_lon max_lon : R) : @MBR RNum :=
  @Build_MBR RNum min_lat max_lat min_lon max_lon.
(** * Verification *)

(** ** The error monad *)

Lemma bind_Ok {A B : Type} (c : result A) (k : A -> result B) (b : B) :
  bind c k = Ok b -> exists a, c = Ok a /\ k a = Ok b.
Proof.
  destruct c as [a | e]; simpl; intros H; [eauto | discriminate].
Qed.

Lemma item_Ok {A : Type} (l : list A) (i : nat) :
  i < length l -> exists a, item l i = Ok a /\ nth_error l i = Some a.
Proof.
  intros H. unfold item.
  destruct (nth_error l i) as [a |] eqn:E; [eauto |].
  apply nth_error_None in E. lia.
Qed.

Ltac inv_bind H :=
  let a := fresh "a" in
  let E := fresh "E" in
  apply bind_Ok in H; destruct H as (a & E & H).

(** ** Lists with a position taken out *)

Lemma split_at_cons {A : Type} (x : A) (l : list A) (k : nat) :
  split_at (x :: l) (S k) =
  match split_at l k with
  | Some (before, a, after) => Some (x :: before, a, after)
  | None => None
  end.
Proof.
  unfold split_at. simpl. destruct (nth_error l k); reflexivity.
Qed.

Lemma split_at_Some {A : Type} (l : list A) (k : nat) before a after :
  split_at l k = Some (before, a, after) ->
  l = before ++ a :: after /\ length before = k.
Proof.
  revert k before a after.
  induction l as [| x l IH]; intros [| k] before a after; try discriminate.
  - unfold split_at. simpl. intros H. inversion H; subst. auto.
  - rewrite split_at_cons.
    destruct (split_at l k) as [[[b' a'] af'] |] eqn:E; [| discriminate].
    intros H. inversion H; subst.
    destruct (IH _ _ _ _ E) as [-> <-]. auto.
Qed.

Lemma split_at_lt {A : Type} (l : list A) (k : nat) :
  k < length l -> exists before a after, split_at l k = Some (before, a, after).
Proof.
  intros H. unfold split_at.
  destruct (nth_error l k) eqn:E; [eauto |].
  apply nth_error_None in E. lia.
Qed.

Section TreeFacts.

Context {F : Num}.

(** ** Induction on nodes *)

Lemma RTreeNode_induction (P : RTreeNode -> Prop) :
  (forall m entries, P (Leaf m entries)) ->
  (forall m entries,
      Forall (fun e => P (snd e)) entries -> P (Internal m entries)) ->
  forall node, P node.
Proof.
  intros HL HI. fix IH 1. intros [m es | m es].
  - apply HL.
  - apply HI. induction es as [| [b c] es IHes]; constructor.
    + apply IH.
    + apply IHes.
Qed.

(** ** [_choose_leaf], unfolded once *)

Lemma _choose_leaf_Internal m entries up mbr :
  _choose_leaf (Internal m entries) up mbr =
  match best_entry entries mbr with
  | None => Raise AttributeError
  | Some i =>
      match split_at entries i with
      | Some (before, (b, child), after) =>
          _choose_leaf child
            ({| f_mbr := m; f_before := before;
                f_entry_mbr := b; f_after := after |} :: up) mbr
      | None => Raise AttributeError
      end
  end.
Proof.
  simpl. destruct (best_entry entries mbr) as [i |]; [| reflexivity].
  assert (G : forall rest before k,
    (fix descend (before rest : list (MBR * RTreeNode)) (k : nat)
         {struct rest} :=
       match rest with
       | [] => Raise AttributeError
       | (b, child) :: after =>
           match k with
           | O => _choose_leaf child
                    ({| f_mbr := m; f_before := before;
                        f_entry_mbr := b; f_after := after |} :: up) mbr
           | S k' => descend (before ++ [(b, child)]) after k'
           end
       end) before rest k =
    match split_at rest k with
    | Some (before', (b, child), after) =>
        _choose_leaf child
          ({| f_mbr := m; f_before := before ++ before';
              f_entry_mbr := b; f_after := after |} :: up) mbr
    | None => Raise AttributeError
    end).
  { induction rest as [| [b c] rest IHr]; intros before k.
    - destruct k; reflexivity.
    - destruct k as [| k].
      + unfold split_at. simpl. rewrite app_nil_r. reflexivity.
      + rewrite IHr, split_at_cons.
        destruct (split_at rest k) as [[[b' [b0 c0]] af'] |]; [| reflexivity].
        rewrite <- app_assoc. reflexivity. }
  rewrite G. reflexivity.
Qed.

End TreeFacts.

(** ** Seeds *)

Section SeedFacts.

Context {F : Num}.

Lemma seed_scan_bound {A : Type} lo hi a b (entries : list (MBR * A)) :
  forall i seeds n,
    fst seeds < n -> snd seeds < n -> i + length entries <= n ->
    fst (seed_scan lo hi a b entries i seeds) < n
    /\ snd (seed_scan lo hi a b entries i seeds) < n.
Proof.
  induction entries as [| e rest IH]; intros i seeds n H1 H2 Hn; simpl in *.
  - auto.
  - apply IH; simpl; try lia.
    + destruct (feq (lo (fst e)) a); lia.
    + destruct (feq (hi (fst e)) b); lia.
Qed.

Lemma py_min_of_Ok (l : list float) :
  l <> [] -> exists x, py_min_of l = Ok x.
Proof. destruct l; [congruence | simpl; eauto]. Qed.

Lemma py_max_of_Ok (l : list float) :
  l <> [] -> exists x, py_max_of l = Ok x.
Proof. destruct l; [congruence | simpl; eauto]. Qed.

Lemma pick_on_axis_bound {A : Type} lo hi (entries : list (MBR * A)) st :
  entries <> [] ->
  fst (snd st) < length entries -> snd (snd st) < length entries ->
  exists st', pick_on_axis lo hi entries st = Ok st'
    /\ fst (snd st') < length entries /\ snd (snd st') < length entries.
Proof.
  intros Hne H1 H2. destruct st as [sep seeds]. unfold pick_on_axis.
  destruct (py_min_of_Ok (map (fun e => hi (fst e)) entries)) as [x1 ->].
  { destruct entries; simpl; congruence. }
  destruct (py_max_of_Ok (map (fun e => lo (fst e)) entries)) as [x2 ->].
  { destruct entries; simpl; congruence. }
  destruct (py_min_of_Ok (map (fun e => lo (fst e)) entries)) as [x3 ->].
  { destruct entries; simpl; congruence. }
  destruct (py_max_of_Ok (map (fun e => hi (fst e)) entries)) as [x4 ->].
  { destruct entries; simpl; congruence. }
  simpl.
  destruct (flt (fconst 0) (fsub x4 x3)); [| eauto].
  destruct (gt_neg_inf _ sep); [| eauto].
  eexists; split; [reflexivity |]. simpl.
  apply seed_scan_bound; simpl in *; lia.
Qed.

Lemma _linear_pick_seeds_Ok {A : Type} (entries : list (MBR * A)) :
  entries <> [] ->
  exists seed1_idx seed2_idx,
    _linear_pick_seeds entries = Ok (seed1_idx, seed2_idx)
    /\ seed1_idx < length entries /\ seed2_idx < length entries
    /\ (2 <= length entries -> seed1_idx <> seed2_idx).
Proof.
  intros Hne.
  assert (Hlen : 0 < length entries) by (destruct entries; simpl; [congruence | lia]).
  unfold _linear_pick_seeds.
  destruct (pick_on_axis_bound min_lat max_lat entries
              (None, (0, if 1 <? length entries then 1 else 0)) Hne)
    as (st1 & -> & B1 & B2); simpl.
  - lia.
  - destruct (Nat.ltb_spec 1 (length entries)); lia.
  - destruct (pick_on_axis_bound min_lon max_lon entries st1 Hne B1 B2)
      as ([sep [s1 s2]] & -> & C1 & C2); simpl in *.
    destruct (Nat.eqb_spec s1 s2) as [Heq | Hneq]; simpl.
    + destruct (Nat.ltb_spec 1 (length entries)) as [Hn | Hn].
      * exists s1, ((s1 + 1) mod length entries). split; [reflexivity |].
        split; [assumption |]. split.
        -- apply Nat.mod_upper_bound. lia.
        -- intros _ Habs.
           destruct (Nat.eq_dec (s1 + 1) (length entries)) as [E | E].
           ++ rewrite E, Nat.Div0.mod_same in Habs. lia.
           ++ rewrite Nat.mod_small in Habs by lia. lia.
      * exists s1, s2. repeat split; try assumption. lia.
    + exists s1, s2. repeat split; try assumption. intros _. exact Hneq.
Qed.

End SeedFacts.

(** ** Splitting a list of entries *)

Section SplitFacts.

Context {F : Num}.

Lemma update_mbr_Some {A : Type} (entries : list (MBR * A)) :
  entries <> [] -> exists m, update_mbr entries = Some m.
Proof. destruct entries; [congruence | simpl; eauto]. Qed.

Lemma update_mbr_None {A : Type} (entries : list (MBR * A)) :
  update_mbr entries = None -> entries = [].
Proof. destruct entries; [reflexivity | discriminate]. Qed.

Lemma distribute_Ok {A : Type} (remaining : list (MBR * A)) :
  forall entries1 entries2,
    entries1 <> [] -> entries2 <> [] ->
    exists r1 r2,
      distribute remaining entries1 entries2 = Ok (r1, r2)
      /\ Permutation (r1 ++ r2) (entries1 ++ entries2 ++ remaining)
      /\ r1 <> [] /\ r2 <> [].
Proof.
  induction remaining as [| entry rest IH]; intros e1 e2 H1 H2; simpl.
  - exists e1, e2. rewrite app_nil_r. auto.
  - destruct (update_mbr_Some e1 H1) as [m1 ->].
    destruct (update_mbr_Some e2 H2) as [m2 ->].
    match goal with |- context [if ?c then _ else _] => destruct c end.
    + destruct (IH (e1 ++ [entry]) e2) as (r1 & r2 & E & P & N1 & N2);
        [destruct e1; discriminate | assumption |].
      exists r1, r2. repeat split; try assumption.
      rewrite P. rewrite <- !app_assoc. apply Permutation_app_head.
      simpl. apply Permutation_middle.
    + destruct (IH e1 (e2 ++ [entry])) as (r1 & r2 & E & P & N1 & N2);
        [assumption | destruct e2; discriminate |].
      exists r1, r2. repeat split; try assumption.
      rewrite P. rewrite <- !app_assoc. apply Permutation_app_head.
      apply Permutation_app_head. reflexivity.
Qed.

Lemma kept_all {A : Type} (l : list A) :
  forall k s1 s2, s1 < k -> s2 < k ->
    map snd (filter (keep_index s1 s2) (combine (seq k (length l)) l)) = l.
Proof.
  induction l as [| x l IH]; intros k s1 s2 H1 H2; simpl; [reflexivity |].
  unfold keep_index at 1. simpl.
  destruct (Nat.eqb_spec k s1); [lia |].
  destruct (Nat.eqb_spec k s2); [lia |]. simpl.
  rewrite IH by lia. reflexivity.
Qed.

Lemma kept_but_one {A : Type} (l : list A) :
  forall k s1 s2 b,
    (s1 < k /\ k <= s2 /\ nth_error l (s2 - k) = Some b)
    \/ (s2 < k /\ k <= s1 /\ nth_error l (s1 - k) = Some b) ->
    Permutation l
      (b :: map snd (filter (keep_index s1 s2) (combine (seq k (length l)) l))).
Proof.
  induction l as [| x l IH]; intros k s1 s2 b H; simpl.
  - destruct H as [(_ & _ & H) | (_ & _ & H)];
      destruct (_ - _); discriminate.
  - unfold keep_index at 1. simpl.
    destruct H as [(H1 & H2 & H3) | (H1 & H2 & H3)].
    + destruct (Nat.eqb_spec k s1); [lia |].
      destruct (Nat.eqb_spec k s2) as [-> | Hk]; simpl.
      * rewrite Nat.sub_diag in H3. simpl in H3. inversion H3; subst.
        rewrite kept_all by lia. reflexivity.
      * replace (s2 - k) with (S (s2 - S k)) in H3 by lia. simpl in H3.
        rewrite perm_swap. apply perm_skip. apply IH. left. lia || (repeat split; [lia | lia | exact H3]).
    + destruct (Nat.eqb_spec k s2); [lia |].
      destruct (Nat.eqb_spec k s1) as [-> | Hk]; simpl.
      * rewrite Nat.sub_diag in H3. simpl in H3. inversion H3; subst.
        rewrite kept_all by lia. reflexivity.
      * replace (s1 - k) with (S (s1 - S k)) in H3 by lia. simpl in H3.
        rewrite perm_swap. apply perm_skip. apply IH. right.
        repeat split; [lia | lia | exact H3].
Qed.

Lemma kept_but_two {A : Type} (l : list A) :
  forall k s1 s2 a b,
    s1 <> s2 -> k <= s1 -> k <= s2 ->
    nth_error l (s1 - k) = Some a -> nth_error l (s2 - k) = Some b ->
    Permutation l
      (a :: b ::
         map snd (filter (keep_index s1 s2) (combine (seq k (length l)) l))).
Proof.
  induction l as [| x l IH]; intros k s1 s2 a b Hne H1 H2 Ha Hb; simpl.
  - destruct (s1 - k); discriminate.
  - unfold keep_index at 1. simpl.
    destruct (Nat.eqb_spec k s1) as [-> | K1]; simpl.
    + rewrite Nat.sub_diag in Ha. simpl in Ha. inversion Ha; subst.
      apply perm_skip.
      replace (s2 - s1) with (S (s2 - S s1)) in Hb by lia. simpl in Hb.
      apply kept_but_one. left. repeat split; [lia | lia | exact Hb].
    + replace (s1 - k) with (S (s1 - S k)) in Ha by lia. simpl in Ha.
      destruct (Nat.eqb_spec k s2) as [-> | K2]; simpl.
      * rewrite Nat.sub_diag in Hb. simpl in Hb. inversion Hb; subst.
        rewrite perm_swap. apply perm_skip.
        apply kept_but_one. right. repeat split; [lia | lia | exact Ha].
      * replace (s2 - k) with (S (s2 - S k)) in Hb by lia. simpl in Hb.
        transitivity (x :: a :: b ::
          map snd (filter (keep_index s1 s2)
                          (combine (seq (S k) (length l)) l))).
        -- apply perm_skip. apply IH; try lia; assumption.
        -- rewrite (perm_swap a x). apply perm_skip. apply perm_swap.
Qed.

Lemma remaining_entries_perm {A : Type} (entries : list (MBR * A)) s1 s2 a b :
  s1 <> s2 ->
  nth_error entries s1 = Some a -> nth_error entries s2 = Some b ->
  Permutation entries (a :: b :: remaining_entries entries s1 s2).
Proof.
  intros Hne Ha Hb. unfold remaining_entries.
  apply (kept_but_two entries 0 s1 s2 a b Hne); try lia;
    rewrite Nat.sub_0_r; assumption.
Qed.

Lemma remaining_entries_single {A : Type} (e : MBR * A) s1 s2 :
  s1 < 1 -> s2 < 1 -> remaining_entries [e] s1 s2 = [].
Proof.
  intros H1 H2. assert (s1 = 0) by lia. assert (s2 = 0) by lia. subst.
  reflexivity.
Qed.

(** What a split does to the entries it is given: both halves are
    non-empty; two or more entries are shared out between the halves; a
    single entry ends up in both. *)
Lemma split_entries_spec {A : Type} (entries : list (MBR * A)) :
  entries <> [] ->
  exists entries1 entries2,
    split_entries entries = Ok (entries1, entries2)
    /\ entries1 <> [] /\ entries2 <> []
    /\ (2 <= length entries -> Permutation (entries1 ++ entries2) entries)
    /\ (forall e, entries = [e] -> entries1 = [e] /\ entries2 = [e]).
Proof.
  intros Hne. unfold split_entries.
  destruct (_linear_pick_seeds_Ok entries Hne) as (s1 & s2 & -> & B1 & B2 & D).
  simpl.
  destruct (item_Ok entries s1 B1) as (a & -> & Na).
  destruct (item_Ok entries s2 B2) as (b & -> & Nb). simpl.
  destruct (distribute_Ok (remaining_entries entries s1 s2) [a] [b])
    as (r1 & r2 & E & P & N1 & N2); try discriminate.
  rewrite E.
  exists r1, r2. repeat split; try assumption.
  - intros H2. rewrite P. simpl. symmetry.
    apply remaining_entries_perm; auto.
  - subst. simpl in *. rewrite remaining_entries_single in E by assumption.
    assert (s1 = 0) by lia. subst. simpl in Na, E. congruence.
  - subst. simpl in *. rewrite remaining_entries_single in E by assumption.
    assert (s2 = 0) by lia. subst. simpl in Nb, E. congruence.
Qed.

End SplitFacts.

(** ** The shape of a split *)

Section SplitNodeFacts.

Context {F : Num}.

Lemma split_entries_rel {A : Type} (entries : list (MBR * A)) :
  entries <> [] ->
  exists entries1 entries2,
    split_entries entries = Ok (entries1, entries2)
    /\ split_rel entries entries1 entries2.
Proof.
  intros Hne.
  destruct (split_entries_spec entries Hne) as (e1 & e2 & E & H).
  exists e1, e2. split; [exact E |]. split; [exact Hne | exact H].
Qed.

Lemma split_rel_In {A : Type} (entries e1 e2 : list A) :
  split_rel entries e1 e2 ->
  forall x, In x (e1 ++ e2) -> In x entries.
Proof.
  intros (N & N1 & N2 & P & S) x Hx.
  destruct entries as [| a [| b rest]].
  - congruence.
  - destruct (S a eq_refl) as [-> ->]. simpl in Hx. simpl. tauto.
  - eapply Permutation_in; [apply P; simpl; lia | exact Hx].
Qed.

Lemma split_rel_Forall {A : Type} (P : A -> Prop) (entries e1 e2 : list A) :
  split_rel entries e1 e2 ->
  Forall P entries -> Forall P e1 /\ Forall P e2.
Proof.
  intros H HF. rewrite Forall_forall in HF.
  split; apply Forall_forall; intros x Hx; apply HF;
    apply (split_rel_In _ _ _ H); apply in_or_app; auto.
Qed.

Lemma split_rel_length {A : Type} (entries e1 e2 : list A) :
  split_rel entries e1 e2 -> 2 <= length entries ->
  length e1 + length e2 = length entries
  /\ 1 <= length e1 /\ 1 <= length e2.
Proof.
  intros (N & N1 & N2 & P & S) H2.
  specialize (P H2). apply Permutation_length in P.
  rewrite length_app in P.
  destruct e1; [congruence |]. destruct e2; [congruence |].
  simpl in *. lia.
Qed.

(** [_split_node] on a node that has an entry: it returns, the halves are
    of the kind of the node, their rectangles are set. *)
Lemma _split_node_spec (node : RTreeNode) :
  1 <= entry_count node ->
  exists node1 node2 m1 m2,
    _split_node node = Ok (node1, node2)
    /\ entry_for node1 = Ok (m1, node1) /\ entry_for node2 = Ok (m2, node2)
    /\ ((exists m entries e1 e2,
           node = Leaf m entries /\ node1 = Leaf (Some m1) e1
           /\ node2 = Leaf (Some m2) e2 /\ split_rel entries e1 e2)
        \/ (exists m entries e1 e2,
           node = Internal m entries /\ node1 = Internal (Some m1) e1
           /\ node2 = Internal (Some m2) e2 /\ split_rel entries e1 e2)).
Proof.
  intros H. destruct node as [m es | m es]; simpl in H.
  - destruct (split_entries_rel es) as (e1 & e2 & E & R).
    { destruct es; simpl in H; [lia | discriminate]. }
    destruct (update_mbr_Some e1) as [m1 E1]; [apply R |].
    destruct (update_mbr_Some e2) as [m2 E2]; [apply R |].
    exists (Leaf (Some m1) e1), (Leaf (Some m2) e2), m1, m2.
    simpl. rewrite E. simpl. rewrite E1, E2.
    repeat split. left. exists m, es, e1, e2. auto.
  - destruct (split_entries_rel es) as (e1 & e2 & E & R).
    { destruct es; simpl in H; [lia | discriminate]. }
    destruct (update_mbr_Some e1) as [m1 E1]; [apply R |].
    destruct (update_mbr_Some e2) as [m2 E2]; [apply R |].
    exists (Internal (Some m1) e1), (Internal (Some m2) e2), m1, m2.
    simpl. rewrite E. simpl. rewrite E1, E2.
    repeat split. right. exists m, es, e1, e2. auto.
Qed.

End SplitNodeFacts.

(** ** [best_entry] picks an entry when there is one *)

Section ChooseFacts.

Context {F : Num}.

Lemma choose_loop_range {A : Type} mbr (entries : list (MBR * A)) :
  forall i st n,
    (forall j, fst (fst st) = Some j -> j < n) ->
    i + length entries <= n ->
    forall j, fst (fst (choose_loop mbr entries i st)) = Some j -> j < n.
Proof.
  induction entries as [| e rest IH]; intros i st n Hst Hn j; simpl in *.
  - apply Hst.
  - apply IH; [| lia].
    intros j'. destruct st as [[b me] ma]. unfold choose_step.
    match goal with |- context [if ?c then _ else _] => destruct c end;
      simpl; [| apply Hst].
    intros E. inversion E. lia.
Qed.

Lemma choose_loop_keeps {A : Type} mbr (entries : list (MBR * A)) :
  forall i st,
    fst (fst st) <> None ->
    fst (fst (choose_loop mbr entries i st)) <> None.
Proof.
  induction entries as [| e rest IH]; intros i st Hst; simpl.
  - exact Hst.
  - apply IH. destruct st as [[b me] ma]. unfold choose_step.
    match goal with |- context [if ?c then _ else _] => destruct c end;
      simpl; [discriminate | exact Hst].
Qed.

Lemma best_entry_Some {A : Type} (entries : list (MBR * A)) mbr :
  entries <> [] ->
  exists i, best_entry entries mbr = Some i /\ i < length entries.
Proof.
  intros Hne. unfold best_entry.
  destruct (fst (fst (choose_loop mbr entries 0 (None, None, None))))
    as [i |] eqn:E.
  - exists i. split; [reflexivity |].
    eapply (choose_loop_range mbr entries 0 (None, None, None));
      [simpl; discriminate | simpl; lia | exact E].
  - exfalso. destruct entries as [| e rest]; [congruence |].
    simpl in E. revert E. apply choose_loop_keeps. simpl. discriminate.
Qed.

Lemma best_entry_range {A : Type} (entries : list (MBR * A)) mbr i :
  best_entry entries mbr = Some i -> i < length entries.
Proof.
  unfold best_entry. intros E.
  eapply (choose_loop_range mbr entries 0 (None, None, None));
    [simpl; discriminate | simpl; lia | exact E].
Qed.

End ChooseFacts.

(** ** All leaves stay at one depth *)

Section UniformFacts.

Context {F : Num}.

Lemma Forall_hole {A : Type} (P : A -> Prop) before x after :
  Forall P (before ++ x :: after) <-> P x /\ Forall P (before ++ after).
Proof.
  rewrite !Forall_app, Forall_cons_iff. tauto.
Qed.

Lemma uniform_plug node up h :
  uniform h node -> uniform_path h up ->
  uniform (length up + h) (plug node up).
Proof.
  revert node h. induction up as [| fr up IH]; intros node h Hn Hp; simpl.
  - exact Hn.
  - inversion Hp; subst.
    replace (S (length up + h)) with (length up + S h) by lia.
    apply IH; [| assumption].
    unfold fill. constructor.
    + destruct (f_before fr); discriminate.
    + apply Forall_hole. auto.
Qed.

Lemma _choose_leaf_uniform mbr node :
  forall h up,
    uniform h node -> uniform_path h up ->
    exists m entries up',
      _choose_leaf node up mbr = Ok (m, entries, up')
      /\ uniform_path 0 up'
      /\ length up' = length up + h
      /\ plug (Leaf m entries) up' = plug node up.
Proof.
  induction node as [m es | m es IH] using RTreeNode_induction;
    intros h up Hn Hp.
  - inversion Hn; subst. exists m, es, up. simpl. auto.
  - inversion Hn as [| h' m' es' Hne HF]; subst.
    rewrite _choose_leaf_Internal.
    destruct (best_entry_Some es mbr Hne) as (i & -> & Hi).
    destruct (split_at_lt es i Hi) as (before & [b child] & after & E).
    rewrite E. apply split_at_Some in E. destruct E as [-> _].
    apply Forall_hole in IH. destruct IH as [IHc _].
    apply Forall_hole in HF. destruct HF as [Hc Hs].
    simpl in IHc, Hc.
    destruct (IHc h' ({| f_mbr := m; f_before := before;
                         f_entry_mbr := b; f_after := after |} :: up))
      as (m0 & es0 & up' & E & U & L & P).
    + exact Hc.
    + constructor; assumption.
    + exists m0, es0, up'. simpl in L. repeat split; try assumption. lia.
Qed.

Lemma _handle_overflow_uniform self_max_entries up :
  forall node h,
    uniform h node -> 1 <= entry_count node -> uniform_path h up ->
    exists new_root H,
      _handle_overflow self_max_entries node up = Ok new_root
      /\ uniform H new_root
      /\ (H = length up + h \/ H = S (length up + h)).
Proof.
  induction up as [| fr up IH]; intros node h Hn Hc Hp.
  - simpl.
    destruct (_split_node_spec node Hc)
      as (n1 & n2 & m1 & m2 & E0 & E1 & E2 & Hk).
    rewrite E0; simpl; rewrite E1; simpl; rewrite E2; simpl.
    eexists; exists (S h). split; [reflexivity |]. split; [| auto].
    constructor; [discriminate |].
    destruct Hk as [(m & es & e1 & e2 & -> & -> & -> & R)
                   | (m & es & e1 & e2 & -> & -> & -> & R)].
    + inversion Hn; subst. repeat constructor.
    + inversion Hn; subst.
      destruct (split_rel_Forall _ _ _ _ R H3) as [F1 F2].
      repeat constructor; simpl;
        (apply R || assumption).
  - simpl.
    destruct (_split_node_spec node Hc)
      as (n1 & n2 & m1 & m2 & E0 & E1 & E2 & Hk).
    rewrite E0; simpl; rewrite E1; simpl; rewrite E2; simpl.
    inversion Hp as [| h0 fr0 up0 Hs Hup]; subst.
    assert (U1 : uniform h n1 /\ uniform h n2).
    { destruct Hk as [(m & es & e1 & e2 & -> & -> & -> & R)
                     | (m & es & e1 & e2 & -> & -> & -> & R)].
      - inversion Hn; subst. split; constructor.
      - inversion Hn; subst.
        destruct (split_rel_Forall _ _ _ _ R H3) as [F1 F2].
        split; constructor; (apply R || assumption). }
    destruct U1 as [U1 U2].
    assert (UP : uniform (S h)
                   (Internal
                      (update_mbr ((f_before fr ++ f_after fr)
                                     ++ [(m1, n1); (m2, n2)]))
                      ((f_before fr ++ f_after fr) ++ [(m1, n1); (m2, n2)]))).
    { constructor.
      - destruct (f_before fr ++ f_after fr); discriminate.
      - apply Forall_app. split; [assumption |]. repeat constructor; assumption. }
    destruct (overflows _ _).
    + destruct (IH _ (S h) UP) as (r & H & E & HU & HH); [| exact Hup |].
      * simpl. rewrite length_app. simpl. lia.
      * exists r, H. repeat split; try assumption. lia.
    + eexists; exists (length up + S h). split; [reflexivity |].
      split; [apply uniform_plug; assumption | lia].
Qed.

Lemma insert_uniform (self : RTree) (point : Point) h :
  uniform h (root self) ->
  exists self' h',
    insert self point = Ok self'
    /\ uniform h' (root self')
    /\ (h' = h \/ h' = S h)
    /\ max_entries self' = max_entries self
    /\ min_entries self' = min_entries self.
Proof.
  intros Hn. unfold insert.
  destruct (_choose_leaf_uniform (from_point point) (root self) h [] Hn
              (uniform_root h))
    as (m & es & up & -> & Hup & Hlen & Hplug).
  simpl in *.
  set (entries := es ++ [(from_point point, point)]).
  destruct (overflows _ _).
  - destruct (_handle_overflow_uniform (max_entries self) up
                (Leaf (update_mbr entries) entries) 0)
      as (r & H & -> & HU & HH); try assumption.
    + constructor.
    + simpl. unfold entries. rewrite length_app. simpl. lia.
    + simpl. exists (set_root self r), H. simpl.
      repeat split; try assumption. lia.
  - exists (set_root self (plug (Leaf (update_mbr entries) entries) up)), h.
    simpl. repeat split; auto.
    replace h with (length up + 0) by lia.
    apply uniform_plug; [constructor | assumption].
Qed.

Lemma insert_all_uniform (points : list Point) :
  forall (self : RTree) h,
    uniform h (root self) ->
    exists self' h',
      insert_all self points = Ok self'
      /\ uniform h' (root self')
      /\ max_entries self' = max_entries self
      /\ min_entries self' = min_entries self.
Proof.
  induction points as [| p rest IH]; intros self h Hn; simpl.
  - exists self, h. auto.
  - destruct (insert_uniform self p h Hn)
      as (s1 & h1 & -> & U1 & _ & M1 & M1').
    simpl.
    destruct (IH s1 h1 U1) as (s2 & h2 & -> & U2 & M2 & M2').
    exists s2, h2. repeat split; try assumption; congruence.
Qed.

Lemma uniform_leaf_depths h node :
  uniform h node -> forall d, In d (leaf_depths node) -> d = h.
Proof.
  revert h. induction node as [m es | m es IH] using RTreeNode_induction;
    intros h Hn d Hd.
  - inversion Hn; subst. simpl in Hd. intuition.
  - inversion Hn as [| h' m' es' Hne HF]; subst.
    simpl in Hd. apply in_map_iff in Hd. destruct Hd as (d' & <- & Hd').
    apply in_flat_map in Hd'. destruct Hd' as (e & He & Hd').
    rewrite Forall_forall in IH, HF.
    f_equal. apply (IH e He h'); [apply HF; exact He | exact Hd'].
Qed.

End UniformFacts.

(** ** The descent of [_choose_leaf] *)

Section DescentFacts.

Context {F : Num}.

Lemma plug_app node frames up :
  plug node (frames ++ up) = plug (plug node frames) up.
Proof.
  revert node. induction frames as [| fr frames IH]; intros node; simpl.
  - reflexivity.
  - apply IH.
Qed.

(** The path returned is the path given, extended below by the frames
    of the descent; the leaf plugged into those frames is the node the
    descent started from. *)
Lemma _choose_leaf_frames mbr node :
  forall up m entries up',
    _choose_leaf node up mbr = Ok (m, entries, up') ->
    exists frames,
      up' = frames ++ up /\ plug (Leaf m entries) frames = node.
Proof.
  induction node as [m es | m es IH] using RTreeNode_induction;
    intros up m0 es0 up' H.
  - simpl in H. inversion H; subst. exists []. auto.
  - rewrite _choose_leaf_Internal in H.
    destruct (best_entry es mbr) as [i |]; [| discriminate].
    destruct (split_at es i) as [[[before [b child]] after] |] eqn:E;
      [| discriminate].
    apply split_at_Some in E. destruct E as [-> _].
    apply Forall_hole in IH. destruct IH as [IHc _]. simpl in IHc.
    destruct (IHc _ _ _ _ H) as (frames & -> & P).
    exists (frames ++ [{| f_mbr := m; f_before := before;
                          f_entry_mbr := b; f_after := after |}]).
    split.
    + rewrite <- app_assoc. reflexivity.
    + rewrite plug_app, P. reflexivity.
Qed.

End DescentFacts.

(** ** No node above capacity *)

Section CapacityFacts.

Context {F : Num}.

Variable M : Z.

Local Abbreviation bounded := (every_node (within_capacity M)).

Lemma bounded_Internal m entries :
  bounded (Internal m entries) = true <->
  (Z.of_nat (length entries) <= M)%Z
  /\ Forall (fun e => bounded (snd e) = true) entries.
Proof.
  simpl. rewrite andb_true_iff, forallb_forall, Forall_forall.
  unfold within_capacity. simpl. rewrite Z.leb_le. tauto.
Qed.

Lemma bounded_Leaf m entries :
  bounded (Leaf m entries) = true <-> (Z.of_nat (length entries) <= M)%Z.
Proof.
  simpl. rewrite andb_true_r. unfold within_capacity. simpl.
  apply Z.leb_le.
Qed.

Lemma bounded_fill fr node :
  bounded (fill fr node) = true <->
  bounded node = true
  /\ (Z.of_nat (S (length (f_before fr ++ f_after fr))) <= M)%Z
  /\ Forall (fun e => bounded (snd e) = true) (f_before fr ++ f_after fr).
Proof.
  unfold fill. rewrite bounded_Internal, Forall_hole.
  rewrite !length_app. simpl. rewrite Nat.add_succ_r. tauto.
Qed.

Lemma bounded_plug up :
  forall node,
    bounded (plug node up) = true <->
    bounded node = true /\ bounded_path M up.
Proof.
  induction up as [| fr up IH]; intros node; simpl.
  - tauto.
  - rewrite IH, bounded_fill. tauto.
Qed.

Lemma bounded_path_app frames up :
  bounded_path M (frames ++ up) <->
  bounded_path M frames /\ bounded_path M up.
Proof.
  induction frames as [| fr frames IH]; simpl; [tauto |].
  rewrite IH. tauto.
Qed.

Lemma _handle_overflow_bounded up :
  (2 <= M)%Z ->
  forall node new_root,
    Z.of_nat (entry_count node) = (M + 1)%Z ->
    (forall m entries, node = Internal m entries ->
       Forall (fun e => bounded (snd e) = true) entries) ->
    bounded_path M up ->
    _handle_overflow M node up = Ok new_root ->
    bounded new_root = true.
Proof.
  intros HM. induction up as [| fr up IH]; intros node r Hc Hch Hp H.
  - simpl in H.
    destruct (_split_node_spec node) as (n1 & n2 & m1 & m2 & E0 & E1 & E2 & Hk);
      [lia |].
    rewrite E0 in H; simpl in H; rewrite E1 in H; simpl in H;
      rewrite E2 in H; simpl in H.
    inversion H; subst; clear H.
    assert (B : bounded n1 = true /\ bounded n2 = true).
    { destruct Hk as [(m & es & e1 & e2 & -> & -> & -> & R)
                     | (m & es & e1 & e2 & -> & -> & -> & R)];
        simpl in Hc;
        (destruct (split_rel_length _ _ _ R) as (L & L1 & L2); [lia |]).
      - rewrite !bounded_Leaf. lia.
      - rewrite !bounded_Internal.
        destruct (split_rel_Forall _ _ _ _ R (Hch _ _ eq_refl)).
        repeat split; try assumption; lia. }
    apply bounded_Internal. simpl. split; [lia |].
    repeat constructor; simpl; apply B.
  - simpl in H.
    destruct (_split_node_spec node) as (n1 & n2 & m1 & m2 & E0 & E1 & E2 & Hk);
      [lia |].
    rewrite E0 in H; simpl in H; rewrite E1 in H; simpl in H;
      rewrite E2 in H; simpl in H.
    assert (B : bounded n1 = true /\ bounded n2 = true).
    { destruct Hk as [(m & es & e1 & e2 & -> & -> & -> & R)
                     | (m & es & e1 & e2 & -> & -> & -> & R)];
        simpl in Hc;
        (destruct (split_rel_length _ _ _ R) as (L & L1 & L2); [lia |]).
      - rewrite !bounded_Leaf. lia.
      - rewrite !bounded_Internal.
        destruct (split_rel_Forall _ _ _ _ R (Hch _ _ eq_refl)).
        repeat split; try assumption; lia. }
    destruct Hp as (Hlen & Hsib & Hup).
    assert (Hall : Forall (fun e => bounded (snd e) = true)
                     ((f_before fr ++ f_after fr) ++ [(m1, n1); (m2, n2)])).
    { apply Forall_app. split; [assumption |].
      repeat constructor; simpl; apply B. }
    unfold overflows in H.
    destruct (Z.gtb_spec
                (Z.of_nat (length ((f_before fr ++ f_after fr)
                                     ++ [(m1, n1); (m2, n2)]))) M)
      as [Hov | Hov].
    + apply (IH _ _) in H; try assumption.
      * simpl. repeat rewrite length_app in *. simpl in *. lia.
      * intros m es Heq. inversion Heq; subst. exact Hall.
    + inversion H; subst. apply bounded_plug. split; [| assumption].
      apply bounded_Internal. split; [lia | exact Hall].
Qed.

Lemma insert_bounded (self self' : RTree) (point : Point) :
  M = max_entries self ->
  (2 <= M)%Z ->
  bounded (root self) = true ->
  insert self point = Ok self' ->
  bounded (root self') = true /\ max_entries self' = M.
Proof.
  intros EM HM Hb H. unfold insert in H. inv_bind H.
  destruct a as [[m es] up].
  destruct (_choose_leaf_frames _ _ _ _ _ _ E) as (frames & -> & P).
  rewrite app_nil_r in *.
  rewrite <- P in Hb. apply bounded_plug in Hb. destruct Hb as [Hl Hp].
  apply bounded_Leaf in Hl.
  unfold overflows in H. rewrite <- EM in H.
  destruct (Z.gtb_spec
              (Z.of_nat (length (es ++ [(from_point point, point)]))) M)
    as [Hov | Hov].
  - inv_bind H. inversion H; subst self'; clear H. simpl. split; [| auto].
    eapply _handle_overflow_bounded; try eassumption.
    + simpl. rewrite length_app in *. simpl in *. lia.
    + intros; discriminate.
  - inversion H; subst self'; clear H. simpl. split; [| auto].
    apply bounded_plug. split; [| assumption].
    apply bounded_Leaf. exact Hov.
Qed.

End CapacityFacts.

Section CapacityAll.

Context {F : Num}.

Lemma insert_all_bounded (points : list Point) :
  forall (self self' : RTree),
    (2 <= max_entries self)%Z ->
    every_node (within_capacity (max_entries self)) (root self) = true ->
    insert_all self points = Ok self' ->
    every_node (within_capacity (max_entries self)) (root self') = true
    /\ max_entries self' = max_entries self.
Proof.
  induction points as [| p rest IH]; intros self self' HM Hb H; simpl in H.
  - inversion H; subst. auto.
  - inv_bind H.
    destruct (insert_bounded (max_entries self) self a p eq_refl HM Hb E)
      as [Hb1 HM1].
    rewrite <- HM1 in *.
    destruct (IH a self' HM Hb1 H) as [Hb2 HM2]. auto.
Qed.

End CapacityAll.

(** ** The points in the leaves *)

Section PointFacts.

Context {F : Num}.

Lemma leaf_points_fill fr node :
  Permutation (leaf_points (fill fr node))
    (leaf_points node
     ++ flat_map (fun e => leaf_points (snd e)) (f_before fr ++ f_after fr)).
Proof.
  unfold fill. simpl. rewrite !flat_map_app. simpl.
  rewrite Permutation_app_swap_app. reflexivity.
Qed.

Lemma leaf_points_plug up :
  forall node,
    Permutation (leaf_points (plug node up))
                (leaf_points node ++ path_points up).
Proof.
  induction up as [| fr up IH]; intros node; simpl.
  - rewrite app_nil_r. reflexivity.
  - rewrite IH, leaf_points_fill, <- app_assoc. reflexivity.
Qed.

Lemma _split_node_points node node1 node2 :
  2 <= entry_count node ->
  _split_node node = Ok (node1, node2) ->
  Permutation (leaf_points node1 ++ leaf_points node2) (leaf_points node).
Proof.
  intros Hc H.
  destruct (_split_node_spec node) as (n1 & n2 & m1 & m2 & E0 & _ & _ & Hk);
    [lia |].
  rewrite E0 in H. inversion H; subst; clear H.
  destruct Hk as [(m & es & e1 & e2 & -> & -> & -> & R)
                 | (m & es & e1 & e2 & -> & -> & -> & R)];
    simpl in *; destruct R as (_ & _ & _ & P & _); specialize (P Hc).
  - rewrite <- map_app. apply Permutation_map. exact P.
  - rewrite <- flat_map_app. apply Permutation_flat_map. exact P.
Qed.

Lemma _handle_overflow_points self_max_entries up :
  forall node new_root,
    2 <= entry_count node ->
    _handle_overflow self_max_entries node up = Ok new_root ->
    Permutation (leaf_points new_root) (leaf_points node ++ path_points up).
Proof.
  induction up as [| fr up IH]; intros node r Hc H; simpl in H.
  - inv_bind H. destruct a as [n1 n2]. inv_bind H. inv_bind H.
    inversion H; subst; clear H.
    unfold entry_for in *.
    destruct (node_mbr n1); [| discriminate].
    destruct (node_mbr n2); [| discriminate].
    inversion E0; inversion E1; subst. simpl. rewrite !app_nil_r.
    apply _split_node_points; assumption.
  - inv_bind H. destruct a as [n1 n2]. inv_bind H. inv_bind H.
    unfold entry_for in *.
    destruct (node_mbr n1); [| discriminate].
    destruct (node_mbr n2); [| discriminate].
    inversion E0; inversion E1; subst.
    pose proof (_split_node_points _ _ _ Hc E) as P.
    assert (Q : Permutation
                  (flat_map (fun e => leaf_points (snd e))
                     ((f_before fr ++ f_after fr) ++ [(m, n1); (m0, n2)]))
                  (leaf_points node
                   ++ flat_map (fun e => leaf_points (snd e))
                        (f_before fr ++ f_after fr))).
    { rewrite flat_map_app. simpl. rewrite app_nil_r.
      rewrite Permutation_app_comm. apply Permutation_app_tail. exact P. }
    destruct (overflows _ _).
    + apply IH in H.
      * rewrite H. simpl. rewrite Q, <- app_assoc. reflexivity.
      * simpl. rewrite length_app. simpl. lia.
    + inversion H; subst. rewrite leaf_points_plug. simpl.
      rewrite Q, <- app_assoc. reflexivity.
Qed.

Lemma insert_fields (self self' : RTree) (point : Point) :
  insert self point = Ok self' ->
  max_entries self' = max_entries self
  /\ min_entries self' = min_entries self.
Proof.
  unfold insert. intros H. inv_bind H. destruct a as [[m es] up].
  destruct (overflows _ _).
  - inv_bind H. inversion H; subst. auto.
  - inversion H; subst. auto.
Qed.

Lemma insert_points (self self' : RTree) (point : Point) :
  (1 <= max_entries self)%Z ->
  insert self point = Ok self' ->
  Permutation (leaf_points (root self'))
              (leaf_points (root self) ++ [point]).
Proof.
  intros HM H. unfold insert in H. inv_bind H. destruct a as [[m es] up].
  destruct (_choose_leaf_frames _ _ _ _ _ _ E) as (frames & -> & P).
  rewrite app_nil_r in *.
  assert (Q : Permutation
                (leaf_points (Leaf (update_mbr (es ++ [(from_point point, point)]))
                                   (es ++ [(from_point point, point)]))
                 ++ path_points frames)
                (leaf_points (root self) ++ [point])).
  { rewrite <- P, leaf_points_plug. simpl. rewrite map_app. simpl.
    rewrite <- !app_assoc. apply Permutation_app_head.
    apply Permutation_app_comm. }
  unfold overflows in H.
  destruct (Z.gtb_spec
              (Z.of_nat (length (es ++ [(from_point point, point)])))
              (max_entries self)) as [Hov | Hov].
  - inv_bind H. inversion H; subst; clear H. simpl.
    apply _handle_overflow_points in E0.
    + rewrite E0. exact Q.
    + simpl. lia.
  - inversion H; subst; clear H. simpl.
    rewrite leaf_points_plug. exact Q.
Qed.

Lemma insert_all_points (points : list Point) :
  forall (self self' : RTree),
    (1 <= max_entries self)%Z ->
    insert_all self points = Ok self' ->
    Permutation (leaf_points (root self'))
                (leaf_points (root self) ++ points).
Proof.
  induction points as [| p rest IH]; intros self self' HM H; simpl in H.
  - inversion H; subst. rewrite app_nil_r. reflexivity.
  - inv_bind H.
    pose proof (insert_points _ _ _ HM E) as P1.
    destruct (insert_fields _ _ _ E) as [M1 _].
    rewrite <- M1 in HM.
    rewrite (IH _ _ HM H), P1, <- app_assoc. reflexivity.
Qed.

Lemma _count_recursive_total node :
  forall c,
    total_entries (_count_recursive node c)
    = total_entries c + length (leaf_points node).
Proof.
  induction node as [m es | m es IH] using RTreeNode_induction; intros c.
  - simpl. rewrite length_map. reflexivity.
  - simpl.
    set (c0 := {| leaf := leaf c; internal := internal c + 1;
                  total_entries := total_entries c |}).
    change (total_entries c) with (total_entries c0).
    generalize c0. clear c0.
    induction es as [| e es IHes]; intros c0; simpl.
    + lia.
    + inversion IH; subst.
      rewrite IHes by assumption. rewrite H1, length_app. lia.
Qed.

End PointFacts.

(** ** The two instances are ordered *)

Lemma Qlt_bool_iff (a b : Q) : Qlt_bool a b = true <-> (a < b)%Q.
Proof.
  unfold Qlt_bool. rewrite Qlt_alt.
  destruct (a ?= b)%Q; split; congruence.
Qed.

#[export] Instance QNumOrder : NumOrder QNum.
Proof.
  split; simpl.
  - intros a b. destruct (Qle_bool b a) eqn:E; simpl.
    + apply Qle_bool_iff in E.
      destruct (Qlt_bool a b) eqn:E'; [| reflexivity].
      apply Qlt_bool_iff in E'. exfalso. apply (Qlt_not_le _ _ E'). exact E.
    + apply Qlt_bool_iff. apply Qnot_le_lt. intros Hle.
      apply Qle_bool_iff in Hle. congruence.
  - intros a b. destruct (Qlt_le_dec a b) as [H | H].
    + left. apply Qle_bool_iff. apply Qlt_le_weak. exact H.
    + right. apply Qle_bool_iff. exact H.
  - intros a b c. rewrite !Qle_bool_iff. apply Qle_trans.
  - intros a b.
    destruct (Qeq_bool a b) eqn:E.
    + apply Qeq_bool_iff in E. symmetry. apply andb_true_iff.
      rewrite !Qle_bool_iff. rewrite E. split; apply Qle_refl.
    + symmetry. apply not_true_iff_false. intros H.
      apply andb_true_iff in H. rewrite !Qle_bool_iff in H.
      destruct H as [H1 H2].
      assert (Heq : (a == b)%Q) by (apply Qle_antisym; assumption).
      apply Qeq_bool_iff in Heq. congruence.
Qed.

Lemma Rlt_bool_iff (a b : R) : Rlt_bool a b = true <-> (a < b)%R.
Proof. unfold Rlt_bool. destruct (Rlt_dec a b); split; congruence. Qed.

Lemma Rle_bool_iff (a b : R) : Rle_bool a b = true <-> (a <= b)%R.
Proof. unfold Rle_bool. destruct (Rle_dec a b); split; congruence. Qed.

Lemma Req_bool_iff (a b : R) : Req_bool a b = true <-> a = b.
Proof. unfold Req_bool. destruct (Req_dec_T a b); split; congruence. Qed.

#[export] Instance RNumOrder : NumOrder RNum.
Proof.
  split; simpl.
  - intros a b. unfold Rlt_bool, Rle_bool.
    destruct (Rlt_dec a b), (Rle_dec b a); simpl; try reflexivity; lra.
  - intros a b. rewrite !Rle_bool_iff. lra.
  - intros a b c. rewrite !Rle_bool_iff. lra.
  - intros a b. unfold Req_bool, Rle_bool.
    destruct (Req_dec_T a b), (Rle_dec a b), (Rle_dec b a); simpl;
      try reflexivity; lra.
Qed.

(** ** Consequences of the order laws *)

Section OrderFacts.

Context {F : Num} {O : NumOrder F}.

Lemma fle_refl (a : float) : fle a a = true.
Proof. destruct (fle_total a a); assumption. Qed.

Lemma flt_false_fle (a b : float) : flt a b = false <-> fle b a = true.
Proof. rewrite flt_fle. destruct (fle b a); simpl; split; congruence. Qed.

Lemma flt_true_fle (a b : float) : flt a b = true -> fle a b = true.
Proof.
  rewrite flt_fle. intros H. destruct (fle_total a b) as [H1 | H1]; [exact H1 |].
  rewrite H1 in H. discriminate.
Qed.

Lemma flt_true_not_fle (a b : float) : flt a b = true <-> fle b a = false.
Proof. rewrite flt_fle. destruct (fle b a); simpl; split; congruence. Qed.

Lemma feq_refl (a : float) : feq a a = true.
Proof. rewrite feq_fle, fle_refl. reflexivity. Qed.

Lemma feq_true (a b : float) :
  feq a b = true <-> fle a b = true /\ fle b a = true.
Proof. rewrite feq_fle. apply andb_true_iff. Qed.

End OrderFacts.

(** ** The sort *)

Section SortFacts.

Context {F : Num} {O : NumOrder F}.

Lemma sort_insert_perm x l : Permutation (sort_insert x l) (x :: l).
Proof.
  induction l as [| y l IH]; simpl; [reflexivity |].
  destruct (flt (snd y) (snd x)); [| reflexivity].
  rewrite IH. apply perm_swap.
Qed.

Lemma sort_by_distance_perm l : Permutation (sort_by_distance l) l.
Proof.
  induction l as [| x l IH]; simpl; [reflexivity |].
  rewrite sort_insert_perm, IH. reflexivity.
Qed.

Lemma sort_insert_sorted x l :
  StronglySorted by_distance l -> StronglySorted by_distance (sort_insert x l).
Proof.
  induction l as [| y l IH]; intros Hs; simpl.
  - repeat constructor.
  - inversion Hs as [| y' l' Hl Hy]; subst.
    destruct (flt (snd y) (snd x)) eqn:E.
    + constructor; [apply IH; assumption |].
      apply Forall_forall. intros z Hz.
      apply (Permutation_in _ (sort_insert_perm x l)) in Hz.
      destruct Hz as [<- | Hz].
      * apply flt_true_fle. exact E.
      * rewrite Forall_forall in Hy. apply Hy. exact Hz.
    + apply flt_false_fle in E.
      constructor; [exact Hs |].
      constructor; [exact E |].
      apply Forall_forall. intros z Hz. rewrite Forall_forall in Hy.
      unfold by_distance in *. eapply fle_trans; [exact E | apply Hy, Hz].
Qed.

Lemma sort_by_distance_sorted l :
  StronglySorted by_distance (sort_by_distance l).
Proof.
  induction l as [| x l IH]; simpl; [constructor |].
  apply sort_insert_sorted. exact IH.
Qed.

(** Stability: the elements at one distance keep their order. *)
Lemma sort_insert_stable k x l :
  filter (fun y => feq (snd y) k) (sort_insert x l)
  = filter (fun y => feq (snd y) k) (x :: l).
Proof.
  induction l as [| y l IH]; [reflexivity |].
  simpl sort_insert. destruct (flt (snd y) (snd x)) eqn:E; [| reflexivity].
  simpl. simpl in IH. rewrite IH.
  destruct (feq (snd x) k) eqn:Ex; [| reflexivity].
  destruct (feq (snd y) k) eqn:Ey; [| reflexivity].
  exfalso. apply feq_true in Ex, Ey.
  apply flt_true_not_fle in E.
  assert (fle (snd x) (snd y) = true)
    by (eapply fle_trans; [apply Ex | apply Ey]).
  congruence.
Qed.

Lemma sort_by_distance_stable k l :
  filter (fun y => feq (snd y) k) (sort_by_distance l)
  = filter (fun y => feq (snd y) k) l.
Proof.
  induction l as [| x l IH]; [reflexivity |].
  simpl sort_by_distance. rewrite sort_insert_stable. simpl.
  rewrite IH. reflexivity.
Qed.

End SortFacts.

(** ** The walk of [_search_square_recursive] *)

Section SearchFacts.

Context {F : Num} {M : Math F}.

Variables center_lat center_lon half_side_lat half_side_lon : float.
Variable center_point : Point.

Local Abbreviation walk node results :=
  (_search_square_recursive node center_lat center_lon half_side_lat
     half_side_lon center_point results).
Local Abbreviation hits points :=
  (square_hits points center_lat center_lon half_side_lat half_side_lon
     center_point).

Lemma square_hits_app l1 l2 : hits (l1 ++ l2) = hits l1 ++ hits l2.
Proof. unfold square_hits. rewrite filter_app, map_app. reflexivity. Qed.

Lemma scan_leaf_hits entries :
  forall results,
    scan_leaf entries center_lat center_lon half_side_lat half_side_lon
              center_point results
    = results ++ hits (map snd entries).
Proof.
  unfold scan_leaf, square_hits.
  induction entries as [| e rest IH]; intros results; simpl.
  - rewrite app_nil_r. reflexivity.
  - rewrite IH.
    destruct (in_square (snd e) _ _ _ _); simpl;
      [rewrite <- app_assoc |]; reflexivity.
Qed.

(** The walk only appends. *)
Lemma walk_appends node :
  forall results, walk node results = results ++ walk node [].
Proof.
  induction node as [m es | m es IH] using RTreeNode_induction;
    intros results.
  - simpl. destruct m as [mbr |]; [| rewrite app_nil_r; reflexivity].
    destruct (intersects_square _ _ _ _ _); simpl;
      [| rewrite app_nil_r; reflexivity].
    rewrite !scan_leaf_hits. reflexivity.
  - simpl. destruct m as [mbr |]; [| rewrite app_nil_r; reflexivity].
    destruct (intersects_square _ _ _ _ _); simpl;
      [| rewrite app_nil_r; reflexivity].
    revert results. induction es as [| e es IHes]; intros results; simpl.
    + rewrite app_nil_r. reflexivity.
    + inversion IH; subst.
      rewrite (IHes H2 (walk (snd e) results)).
      rewrite (IHes H2 (walk (snd e) [])).
      rewrite H1, app_assoc. reflexivity.
Qed.

Lemma walk_children (entries : list (MBR * RTreeNode)) :
  Forall (fun e => forall results,
            walk (snd e) results = results ++ walk (snd e) []) entries ->
  forall results,
    fold_left (fun results e => walk (snd e) results) entries results
    = results ++ flat_map (fun e => walk (snd e) []) entries.
Proof.
  induction entries as [| e es IH]; intros HF results; simpl.
  - rewrite app_nil_r. reflexivity.
  - inversion HF; subst. rewrite IH by assumption.
    rewrite H1, app_assoc. reflexivity.
Qed.

(** What the walk collects, whatever the cached rectangles are: pairs of
    a stored point of the square and its distance. *)
Lemma walk_sound node :
  forall pd, In pd (walk node []) ->
    In (fst pd) (leaf_points node)
    /\ in_square (fst pd) center_lat center_lon half_side_lat half_side_lon
       = true
    /\ snd pd = distance_to center_point (fst pd).
Proof.
  induction node as [m es | m es IH] using RTreeNode_induction; intros pd.
  - simpl. destruct m as [mbr |]; [| intros []].
    destruct (intersects_square _ _ _ _ _); simpl; [| intros []].
    rewrite scan_leaf_hits. simpl. unfold square_hits.
    rewrite in_map_iff. intros (p & <- & Hp).
    apply filter_In in Hp. simpl. tauto.
  - simpl. destruct m as [mbr |]; [| intros []].
    destruct (intersects_square _ _ _ _ _); simpl; [| intros []].
    rewrite walk_children
      by (apply Forall_forall; intros; apply walk_appends).
    simpl. rewrite in_flat_map. intros (e & He & Hpd).
    rewrite Forall_forall in IH.
    destruct (IH e He pd Hpd) as (H1 & H2 & H3).
    repeat split; try assumption.
    apply in_flat_map. exists e. auto.
Qed.

Context {O : NumOrder F}.

Lemma contained_in_square_intersects mbr point :
  contains_point mbr point = true ->
  in_square point center_lat center_lon half_side_lat half_side_lon = true ->
  intersects_square mbr center_lat center_lon half_side_lat half_side_lon
  = true.
Proof.
  unfold contains_point, in_square, intersects_square.
  rewrite !andb_true_iff.
  intros [[A1 A2] [A3 A4]] [[B1 B2] [B3 B4]].
  rewrite (proj2 (flt_false_fle _ _) (fle_trans _ _ _ B1 A2)).
  rewrite (proj2 (flt_false_fle _ _) (fle_trans _ _ _ A1 B2)).
  rewrite (proj2 (flt_false_fle _ _) (fle_trans _ _ _ B3 A4)).
  rewrite (proj2 (flt_false_fle _ _) (fle_trans _ _ _ A3 B4)).
  reflexivity.
Qed.

Lemma covered_outside mbr points :
  forallb (contains_point mbr) points = true ->
  intersects_square mbr center_lat center_lon half_side_lat half_side_lon
  = false ->
  hits points = [].
Proof.
  intros Hc Hi. unfold square_hits.
  induction points as [| p rest IH]; [reflexivity |].
  simpl in Hc. apply andb_true_iff in Hc. destruct Hc as [Hp Hr].
  simpl.
  destruct (in_square p _ _ _ _) eqn:E.
  - rewrite (contained_in_square_intersects _ _ Hp E) in Hi. discriminate.
  - apply IH. exact Hr.
Qed.

(** When every cached rectangle covers the points below it, the walk
    collects every stored point of the square, in leaf order. *)
Lemma walk_complete node :
  every_node mbr_covers_subtree node = true ->
  walk node [] = hits (leaf_points node).
Proof.
  induction node as [m es | m es IH] using RTreeNode_induction; intros Hc.
  - simpl in Hc. rewrite andb_true_r in Hc.
    unfold mbr_covers_subtree in Hc. simpl in Hc.
    simpl. destruct m as [mbr |].
    + destruct (intersects_square _ _ _ _ _) eqn:E; simpl.
      * rewrite scan_leaf_hits. reflexivity.
      * symmetry. eapply covered_outside; eassumption.
    + simpl in Hc. destruct (map snd es); [reflexivity | discriminate].
  - simpl in Hc. apply andb_true_iff in Hc. destruct Hc as [Hc Hch].
    unfold mbr_covers_subtree in Hc. simpl in Hc.
    simpl. destruct m as [mbr |].
    + destruct (intersects_square _ _ _ _ _) eqn:E; simpl.
      * rewrite walk_children
          by (apply Forall_forall; intros; apply walk_appends).
        simpl. rewrite forallb_forall in Hch. rewrite Forall_forall in IH.
        clear Hc E. induction es as [| e es IHes]; [reflexivity |].
        simpl. rewrite square_hits_app.
        rewrite (IH e) by (simpl; auto using Hch, in_eq).
        rewrite IHes; [reflexivity | |];
          intros; [apply IH | apply Hch]; simpl; auto.
      * symmetry. eapply covered_outside; eassumption.
    + simpl in Hc.
      destruct (flat_map (fun e => leaf_points (snd e)) es);
        [reflexivity | discriminate].
Qed.

End SearchFacts.

(** ** [search_square] *)

Section SearchSquareFacts.

Context {F : Num} {M : Math F}.

Lemma search_square_Ok (self : RTree) (center : Point) (radius_km : float) res :
  search_square self center radius_km = Ok res ->
  res = sort_by_distance
          (filter (fun pd => fle (snd pd) radius_km)
             (_search_square_recursive (root self) (lat center) (lon center)
                (half_side_lat_of radius_km)
                (half_side_lon_of center radius_km) center [])).
Proof.
  unfold search_square.
  destruct (feq _ _); [discriminate |].
  intros H. inversion H. reflexivity.
Qed.

Lemma search_square_defined (self : RTree) (center : Point)
  (radius_km : float) :
  feq (fmul (fconst 111) (math_cos (math_radians (lat center)))) (fconst 0)
  = false ->
  search_square self center radius_km
  = Ok (sort_by_distance
          (filter (fun pd => fle (snd pd) radius_km)
             (_search_square_recursive (root self) (lat center) (lon center)
                (half_side_lat_of radius_km)
                (half_side_lon_of center radius_km) center []))).
Proof.
  unfold search_square. intros ->. reflexivity.
Qed.

End SearchSquareFacts.

(** ** Running the code on the reals *)

Lemma Rlt_bool_true (a b : R) : (a < b)%R -> Rlt_bool a b = true.
Proof. apply Rlt_bool_iff. Qed.

Lemma Rlt_bool_false (a b : R) : (b <= a)%R -> Rlt_bool a b = false.
Proof.
  intros H. unfold Rlt_bool. destruct (Rlt_dec a b); [lra | reflexivity].
Qed.

Lemma Rle_bool_true (a b : R) : (a <= b)%R -> Rle_bool a b = true.
Proof. apply Rle_bool_iff. Qed.

Lemma Rle_bool_false (a b : R) : (b < a)%R -> Rle_bool a b = false.
Proof.
  intros H. unfold Rle_bool. destruct (Rle_dec a b); [lra | reflexivity].
Qed.

Lemma Req_bool_true (a b : R) : a = b -> Req_bool a b = true.
Proof. apply Req_bool_iff. Qed.

Lemma Req_bool_false (a b : R) : a <> b -> Req_bool a b = false.
Proof.
  intros H. unfold Req_bool.
  destruct (Req_dec_T a b); [contradiction | reflexivity].
Qed.

Arguments distance_to : simpl never.

(** Decide the comparisons of the goal whose two sides are rational
    expressions. *)
Ltac r_compare :=
  match goal with
  | |- context [Rlt_bool ?a ?b] =>
      first [ rewrite (Rlt_bool_true a b) by lra
            | rewrite (Rlt_bool_false a b) by lra ]
  | |- context [Rle_bool ?a ?b] =>
      first [ rewrite (Rle_bool_true a b) by lra
            | rewrite (Rle_bool_false a b) by lra ]
  | |- context [Req_bool ?a ?b] =>
      first [ rewrite (Req_bool_true a b) by lra
            | rewrite (Req_bool_false a b) by lra ]
  end.

Ltac r_unfold :=
  cbn;
  try unfold mbr_covers_subtree; try unfold covers;
  try unfold contains_point; try unfold in_square;
  try unfold intersects_square; try unfold enlargement; try unfold area;
  try unfold py_min; try unfold py_max; try unfold overflows;
  cbn.

Ltac r_eval := repeat progress (r_unfold; try r_compare).

Lemma cos_radians_0 : cos (0 * PI / 180) = 1%R.
Proof. replace (0 * PI / 180)%R with 0%R by lra. apply cos_0. Qed.

(** The haversine distance from a point to itself is zero. *)
Lemma distance_to_self (p : @Point RNum) : distance_to p p = 0%R.
Proof.
  unfold distance_to. simpl.
  replace ((lat p * PI / 180 - lat p * PI / 180) / 2)%R with 0%R by lra.
  replace ((lon p * PI / 180 - lon p * PI / 180) / 2)%R with 0%R by lra.
  rewrite sin_0.
  replace (0 * 0 + cos (lat p * PI / 180) * cos (lat p * PI / 180) * (0 * 0))%R
    with 0%R by lra.
  rewrite sqrt_0, asin_0. lra.
Qed.

(** It does not depend on which of the two points is the centre. *)
Lemma distance_to_sym (p q : @Point RNum) : distance_to p q = distance_to q p.
Proof.
  unfold distance_to. simpl.
  replace ((lat p * PI / 180 - lat q * PI / 180) / 2)%R
    with (- ((lat q * PI / 180 - lat p * PI / 180) / 2))%R by lra.
  replace ((lon p * PI / 180 - lon q * PI / 180) / 2)%R
    with (- ((lon q * PI / 180 - lon p * PI / 180) / 2))%R by lra.
  rewrite !sin_neg.
  do 3 f_equal. f_equal. lra.
Qed.



(** ** The entry chosen by [_choose_leaf] *)

Section ChoiceFacts.

Context {F : Num} {O : NumOrder F}.







End ChoiceFacts.

(** ** The seeds picked by [_linear_pick_seeds] *)

Section PickFacts.

Context {F : Num}.

Lemma seed_scan_last_match {A : Type} lo hi a b (entries : list (MBR * A)) :
  forall i seeds,
    seed_scan lo hi a b entries i seeds
    = (last_match (fun e => feq (lo (fst e)) a) entries i (fst seeds),
       last_match (fun e => feq (hi (fst e)) b) entries i (snd seeds)).
Proof.
  induction entries as [| e rest IH]; intros i seeds; simpl.
  - destruct seeds; reflexivity.
  - rewrite IH. reflexivity.
Qed.

Lemma last_match_hit {A : Type} (p : A -> bool) (l : list A) :
  forall i d,
    (exists e, In e l /\ p e = true) ->
    exists k e, last_match p l i d = i + k
                /\ nth_error l k = Some e /\ p e = true.
Proof.
  induction l as [| x l IH]; intros i d (e & He & Hp).
  - destruct He.
  - simpl.
    destruct (existsb p l) eqn:Ex.
    + apply existsb_exists in Ex.
      destruct (IH (S i) (if p x then i else d) Ex) as (k & e' & E & N & P).
      exists (S k), e'. rewrite E. repeat split; try assumption. lia.
    + assert (Hx : p x = true).
      { destruct He as [-> | He]; [exact Hp |].
        exfalso. apply not_true_iff_false in Ex. apply Ex.
        apply existsb_exists. eauto. }
      rewrite Hx. exists 0, x.
      assert (G : forall l' j d', existsb p l' = false ->
                                  last_match p l' j d' = d').
      { clear. induction l' as [| y l' IH']; intros j d' H; simpl in *.
        - reflexivity.
        - apply orb_false_iff in H. destruct H as [Hy Hl].
          rewrite Hy. apply IH'. exact Hl. }
      rewrite G by exact Ex. repeat split; try assumption. lia.
Qed.

Lemma fold_py_max_In (l : list float) :
  forall x, In (fold_left py_max l x) (x :: l).
Proof.
  induction l as [| y l IH]; intros x; simpl.
  - auto.
  - assert (C : py_max x y = x \/ py_max x y = y)
      by (unfold py_max; destruct (flt x y); auto).
    destruct (IH (py_max x y)) as [H | H]; [| auto].
    destruct C as [C | C]; rewrite C in *; auto.
Qed.

Lemma fold_py_min_In (l : list float) :
  forall x, In (fold_left py_min l x) (x :: l).
Proof.
  induction l as [| y l IH]; intros x; simpl.
  - auto.
  - assert (C : py_min x y = x \/ py_min x y = y)
      by (unfold py_min; destruct (flt y x); auto).
    destruct (IH (py_min x y)) as [H | H]; [| auto].
    destruct C as [C | C]; rewrite C in *; auto.
Qed.

Lemma py_max_of_In (l : list float) x : py_max_of l = Ok x -> In x l.
Proof.
  destruct l as [| y l]; simpl; [discriminate |].
  intros H. inversion H. apply fold_py_max_In.
Qed.

Lemma py_min_of_In (l : list float) x : py_min_of l = Ok x -> In x l.
Proof.
  destruct l as [| y l]; simpl; [discriminate |].
  intros H. inversion H. apply fold_py_min_In.
Qed.

(** One round of the loop over the axes, in the words of the
    statements. *)
Lemma pick_on_axis_spec {A : Type} (a : axis) (entries : list (MBR * A))
  (st : seed_state) :
  entries <> [] ->
  exists h l w,
    highest_low a entries = Ok h /\ lowest_high a entries = Ok l
    /\ axis_width a entries = Ok w
    /\ normalized_separation a entries = Ok (fdiv (fsub h l) w)
    /\ pick_on_axis (lo_of a) (hi_of a) entries st
       = Ok (if flt (fconst 0) w
             then if gt_neg_inf (fdiv (fsub h l) w) (fst st)
                  then (Some (fdiv (fsub h l) w),
                        seed_scan (lo_of a) (hi_of a) h l entries 0 (snd st))
                  else st
             else st).
Proof.
  intros Hne. unfold pick_on_axis, normalized_separation, axis_width,
    highest_low, lowest_high.
  destruct st as [sep seeds].
  destruct (py_min_of_Ok (map (fun e => hi_of a (fst e)) entries)) as [x1 E1].
  { destruct entries; simpl; congruence. }
  destruct (py_max_of_Ok (map (fun e => lo_of a (fst e)) entries)) as [x2 E2].
  { destruct entries; simpl; congruence. }
  destruct (py_min_of_Ok (map (fun e => lo_of a (fst e)) entries)) as [x3 E3].
  { destruct entries; simpl; congruence. }
  destruct (py_max_of_Ok (map (fun e => hi_of a (fst e)) entries)) as [x4 E4].
  { destruct entries; simpl; congruence. }
  rewrite E1, E2, E3, E4. simpl.
  exists x2, x1, (fsub x4 x3). repeat split.
  destruct (flt (fconst 0) (fsub x4 x3)); [| reflexivity].
  destruct (gt_neg_inf _ sep); reflexivity.
Qed.

Context {O : NumOrder F}.

(** On the axis scanned, the first seed is an entry whose minimum is the
    greatest, the second an entry whose maximum is the least. *)
Lemma seed_scan_achieves {A : Type} (a : axis) (entries : list (MBR * A))
  h l seeds :
  highest_low a entries = Ok h -> lowest_high a entries = Ok l ->
  exists e1 e2,
    nth_error entries
      (fst (seed_scan (lo_of a) (hi_of a) h l entries 0 seeds)) = Some e1
    /\ feq (lo_of a (fst e1)) h = true
    /\ nth_error entries
         (snd (seed_scan (lo_of a) (hi_of a) h l entries 0 seeds)) = Some e2
    /\ feq (hi_of a (fst e2)) l = true.
Proof.
  intros Hh Hl. rewrite seed_scan_last_match. simpl.
  apply py_max_of_In, in_map_iff in Hh. destruct Hh as (x1 & Hx1 & Hin1).
  apply py_min_of_In, in_map_iff in Hl. destruct Hl as (x2 & Hx2 & Hin2).
  destruct (last_match_hit (fun e => feq (lo_of a (fst e)) h) entries 0
              (fst seeds)) as (k1 & e1 & -> & N1 & P1).
  { exists x1. split; [exact Hin1 |]. rewrite Hx1. apply feq_refl. }
  destruct (last_match_hit (fun e => feq (hi_of a (fst e)) l) entries 0
              (snd seeds)) as (k2 & e2 & -> & N2 & P2).
  { exists x2. split; [exact Hin2 |]. rewrite Hx2. apply feq_refl. }
  exists e1, e2. simpl. auto.
Qed.

End PickFacts.

Section PickSpec.

Context {F : Num} {O : NumOrder F}.

(** The end of [_linear_pick_seeds] after a scan of the axis [a]. *)
Lemma seeds_after_scan {A : Type} (a : axis) (entries : list (MBR * A))
  h l seeds s1 s2 :
  highest_low a entries = Ok h -> lowest_high a entries = Ok l ->
  (let '(seed1_idx, seed2_idx) :=
     seed_scan (lo_of a) (hi_of a) h l entries 0 seeds in
   if (seed1_idx =? seed2_idx) && (1 <? length entries)
   then Ok (seed1_idx, (seed1_idx + 1) mod length entries)
   else Ok (seed1_idx, seed2_idx)) = Ok (s1, s2) ->
  exists e1,
    nth_error entries s1 = Some e1
    /\ feq (lo_of a (fst e1)) h = true
    /\ ((exists e2, nth_error entries s2 = Some e2
                    /\ feq (hi_of a (fst e2)) l = true)
        \/ (feq (hi_of a (fst e1)) l = true
            /\ s2 = (s1 + 1) mod length entries)).
Proof.
  intros Hh Hl.
  destruct (seed_scan_achieves a entries h l seeds Hh Hl)
    as (e1 & e2 & N1 & P1 & N2 & P2).
  destruct (seed_scan (lo_of a) (hi_of a) h l entries 0 seeds) as [i1 i2].
  simpl in N1, N2.
  destruct (Nat.eqb_spec i1 i2) as [Heq | Hneq]; simpl.
  - destruct (1 <? length entries); intros H; inversion H; subst.
    + exists e1. repeat split; try assumption. right.
      rewrite N1 in N2. inversion N2; subst. auto.
    + exists e1. repeat split; try assumption. left. eauto.
  - intros H; inversion H; subst.
    exists e1. repeat split; try assumption. left. eauto.
Qed.

Lemma _linear_pick_seeds_spec {A : Type} (entries : list (MBR * A)) :
  entries <> [] ->
  exists s1 s2 ax,
    _linear_pick_seeds entries = Ok (s1, s2)
    /\ chosen_axis entries = Ok ax
    /\ match ax with
       | None => s1 = 0 /\ s2 = (if 1 <? length entries then 1 else 0)
       | Some a =>
           exists h l e1,
             highest_low a entries = Ok h /\ lowest_high a entries = Ok l
             /\ nth_error entries s1 = Some e1
             /\ feq (lo_of a (fst e1)) h = true
             /\ ((exists e2, nth_error entries s2 = Some e2
                             /\ feq (hi_of a (fst e2)) l = true)
                 \/ (feq (hi_of a (fst e1)) l = true
                     /\ s2 = (s1 + 1) mod length entries))
       end.
Proof.
  intros Hne.
  destruct (_linear_pick_seeds_Ok entries Hne) as (s1 & s2 & E & _).
  exists s1, s2.
  cut (exists ax : option axis,
          chosen_axis entries = Ok ax
          /\ match ax with
             | None => s1 = 0 /\ s2 = (if 1 <? length entries then 1 else 0)
             | Some a =>
                 exists h l e1,
                   highest_low a entries = Ok h
                   /\ lowest_high a entries = Ok l
                   /\ nth_error entries s1 = Some e1
                   /\ feq (lo_of a (fst e1)) h = true
                   /\ ((exists e2, nth_error entries s2 = Some e2
                                   /\ feq (hi_of a (fst e2)) l = true)
                       \/ (feq (hi_of a (fst e1)) l = true
                           /\ s2 = (s1 + 1) mod length entries))
             end).
  { intros (ax & H1 & H2). exists ax. auto. }
  revert E. unfold _linear_pick_seeds, chosen_axis.
  set (st0 := (None, (0, if 1 <? length entries then 1 else 0)) : seed_state).
  destruct (pick_on_axis_spec Lat entries st0 Hne)
    as (h1 & l1 & w1 & Hh1 & Hl1 & Hw1 & Hs1 & P1).
  cbn [lo_of hi_of] in P1.
  rewrite P1, Hw1, Hs1. simpl bind.
  destruct (flt (fconst 0) w1) eqn:W1.
  - simpl gt_neg_inf. cbv iota.
    match goal with
    | |- context [pick_on_axis _ _ _ ?st] => set (st1 := st)
    end.
    destruct (pick_on_axis_spec Lon entries st1 Hne)
      as (h2 & l2 & w2 & Hh2 & Hl2 & Hw2 & Hs2 & P2).
    cbn [lo_of hi_of] in P2.
    rewrite P2, Hw2, Hs2. simpl bind.
    destruct (flt (fconst 0) w2) eqn:W2; simpl.
    + destruct (flt (fdiv (fsub h1 l1) w1) (fdiv (fsub h2 l2) w2)) eqn:S;
        simpl; intros E.
      * exists (Some Lon). split; [reflexivity |].
        exists h2, l2.
        destruct (seeds_after_scan Lon entries h2 l2 _ s1 s2 Hh2 Hl2 E)
          as (e1 & H). exists e1. tauto.
      * exists (Some Lat). split; [reflexivity |].
        exists h1, l1.
        destruct (seeds_after_scan Lat entries h1 l1 _ s1 s2 Hh1 Hl1 E)
          as (e1 & H). exists e1. tauto.
    + intros E. exists (Some Lat). split; [reflexivity |].
      exists h1, l1.
      destruct (seeds_after_scan Lat entries h1 l1 _ s1 s2 Hh1 Hl1 E)
        as (e1 & H). exists e1. tauto.
  - destruct (pick_on_axis_spec Lon entries st0 Hne)
      as (h2 & l2 & w2 & Hh2 & Hl2 & Hw2 & Hs2 & P2).
    cbn [lo_of hi_of] in P2.
    rewrite P2, Hw2, Hs2. simpl bind.
    destruct (flt (fconst 0) w2) eqn:W2; simpl.
    + intros E. exists (Some Lon). split; [reflexivity |].
      exists h2, l2.
      destruct (seeds_after_scan Lon entries h2 l2 _ s1 s2 Hh2 Hl2 E)
        as (e1 & H). exists e1. tauto.
    + intros E. exists None. split; [reflexivity |].
      destruct (1 <? length entries); simpl in E; inversion E; auto.
Qed.

End PickSpec.

(** ** Runs of the code *)

(** Three stations with [max_entries = 2]: the third insertion splits
    the root and the tree is two levels high. *)
Example three_stations_split_the_root :
  exists self : RTree,
    insert_all (RTree__init__ 2)
      [station 10 106; station (1001 / 100) 106; station 20 110] = Ok self
    /\ get_height self = 2
    /\ count_nodes self = {| leaf := 2; internal := 1; total_entries := 3 |}.
Proof.
  eexists. split; [vm_compute; reflexivity |].
  split; reflexivity.
Qed.

(** The default tree holds five stations in its root leaf; the sixth
    splits it. *)
Example five_stations_fit_in_the_root :
  exists self : RTree,
    insert_all (RTree__init__ default_max_entries)
      [station 0 0; station 1 1; station 2 2; station 3 3; station 4 4]
      = Ok self
    /\ is_leaf (root self) = true
    /\ entry_count (root self) = 5.
Proof.
  eexists. split; [vm_compute; reflexivity |].
  split; reflexivity.
Qed.

(** An empty tree has nothing to return. *)
Example search_in_empty_tree :
  search_square (RTree__init__ default_max_entries) (rstation 0 0) 5%R = Ok [].
Proof.
  unfold search_square. cbn. rewrite cos_radians_0. r_eval. reflexivity.
Qed.

(** A single station, searched from where it stands. *)
Example search_finds_single_station :
  exists self : RTree,
    insert_all (RTree__init__ default_max_entries) [rstation 0 0] = Ok self
    /\ search_square self (rstation 0 0) (1 / 1000)%R
       = Ok [(rstation 0 0, 0%R)].
Proof.
  eexists. split; [reflexivity |].
  unfold search_square. cbn. rewrite cos_radians_0. r_eval.
  rewrite (distance_to_self (rstation 0 0)). r_eval. reflexivity.
Qed.

(** * Properties of the specification *)

(** C5.  After any sequence of insertions into a fresh tree, whatever
    [max_entries] is, the insertions return and all leaves of the tree
    lie at one depth [h] below the root.  One more insertion leaves that
    depth as it is or, when the root itself was split and a new root put
    over the two halves, adds one to it. *)
Theorem leaves_at_same_depth :
  forall (F : Num) (max_entries : Z) (points : list Point) (point : Point),
  exists (self : RTree) (h : nat) (self' : RTree) (h' : nat),
    insert_all (RTree__init__ max_entries) points = Ok self
    /\ (forall d, In d (leaf_depths (root self)) -> d = h)
    /\ insert self point = Ok self'
    /\ (forall d, In d (leaf_depths (root self')) -> d = h')
    /\ (h' = h \/ h' = S h).
Proof.
  intros F M points point.
  destruct (insert_all_uniform points (RTree__init__ M) 0)
    as (self & h & E & U & _); [constructor |].
  destruct (insert_uniform self point h U) as (self' & h' & E' & U' & Hh & _).
  exists self, h, self', h'.
  repeat split; try assumption; apply uniform_leaf_depths; assumption.
Qed.



(** C9.  With [max_entries >= 2], after inserting [n] points into a fresh
    tree [count_nodes] reports [total_entries = n]; the points in the
    leaves are the inserted points, none lost and none twice. *)
Theorem total_entries_is_number_inserted :
  forall (F : Num) (M : Z) (points : list Point),
    (2 <= M)%Z ->
    exists self : RTree,
      insert_all (RTree__init__ M) points = Ok self
      /\ total_entries (count_nodes self) = length points
      /\ Permutation (leaf_points (root self)) points.
Proof.
  intros F M points HM.
  destruct (insert_all_uniform points (RTree__init__ M) 0)
    as (self & h & E & _); [constructor |].
  exists self. split; [exact E |].
  assert (P : Permutation (leaf_points (root self)) points).
  { apply (insert_all_points points (RTree__init__ M) self); [simpl; lia | exact E]. }
  split; [| exact P].
  unfold count_nodes. rewrite _count_recursive_total. simpl.
  apply Permutation_length. exact P.
Qed.

Lemma total_entries_is_number_inserted_witness :
  exists self : RTree,
    insert_all (RTree__init__ 5) seven_stations = Ok self
    /\ total_entries (count_nodes self) = length seven_stations
    /\ Permutation (leaf_points (root self)) seven_stations.
Proof.
  apply (total_entries_is_number_inserted QNum 5 seven_stations). lia.
Defined.

(** C3.  For every tree and every query, each pair [(point, distance)]
    that [search_square] returns carries the haversine distance
    (Earth radius 6371 km, [distance_to]) between the centre and the
    point, that distance is at most [radius_km], and the result is in
    ascending order of distance.  It is the stable sort of the candidates
    of the walk that are within the radius: the same pairs, those at equal
    distance in the order the walk met them. *)
Theorem search_results_within_radius_sorted :
  forall (F : Num) (M : Math F) (O : NumOrder F)
         (self : RTree) (center : Point) (radius_km : float)
         (results : list (Point * float)),
    search_square self center radius_km = Ok results ->
    let candidates :=
      filter (fun pd => fle (snd pd) radius_km)
        (_search_square_recursive (root self) (lat center) (lon center)
           (half_side_lat_of radius_km) (half_side_lon_of center radius_km)
           center []) in
    Forall (fun pd => snd pd = distance_to center (fst pd)
                      /\ fle (snd pd) radius_km = true) results
    /\ StronglySorted by_distance results
    /\ Permutation results candidates
    /\ (forall k, filter (fun pd => feq (snd pd) k) results
                  = filter (fun pd => feq (snd pd) k) candidates).
Proof.
  intros F M O self center radius_km results H candidates.
  apply search_square_Ok in H. fold candidates in H. subst results.
  split; [| split; [| split]].
  - apply Forall_forall. intros pd Hpd.
    apply (Permutation_in _ (sort_by_distance_perm candidates)) in Hpd.
    unfold candidates in Hpd. apply filter_In in Hpd.
    destruct Hpd as [Hw Hr]. apply walk_sound in Hw. tauto.
  - apply sort_by_distance_sorted.
  - apply sort_by_distance_perm.
  - intros k. apply sort_by_distance_stable.
Qed.




Lemma search_results_within_radius_sorted_witness :
  exists self : RTree,
    insert_all (RTree__init__ 5) [east_of_antimeridian] = Ok self
    /\ let results := [(east_of_antimeridian, 0%R)] in
       let candidates :=
         filter (fun pd => fle (snd pd) 30%R)
           (_search_square_recursive (root self) 0%R (- (1799 / 10))%R
              (half_side_lat_of 30%R)
              (half_side_lon_of east_of_antimeridian 30%R)
              east_of_antimeridian []) in
       Forall (fun pd => snd pd = distance_to east_of_antimeridian (fst pd)
                         /\ fle (snd pd) 30%R = true) results
       /\ StronglySorted by_distance results
       /\ Permutation results candidates
       /\ (forall k, filter (fun pd => feq (snd pd) k) results
                     = filter (fun pd => feq (snd pd) k) candidates).
Proof.
  eexists. split; [reflexivity |].
  apply (search_results_within_radius_sorted RNum RMath RNumOrder _
           east_of_antimeridian 30%R).
  unfold search_square. cbn.
  rewrite cos_radians_0. r_eval.
  rewrite (distance_to_self east_of_antimeridian). r_eval.
  reflexivity.
Defined.

(** C2 fails on the code, which the theorem runs.  With the default
    [max_entries = 5], six stations are inserted (the sixth splits the
    root leaf into the leaf of (10,10) and the leaf of the other five) and
    then a seventh at (20,20).  It joins the leaf of (10,10), whose
    rectangle is recomputed; nothing overflows, so [insert] returns
    without touching the root.  The root's cached rectangle is still
    [0,10] x [0,10] and does not contain the stored point (20,20); the
    entry of that leaf in the root is stale as well. *)
Theorem root_mbr_left_stale_by_insert :
  exists (self : RTree) (stale : MBR),
    insert_all (RTree__init__ default_max_entries) seven_stations = Ok self
    /\ node_mbr (root self) = Some stale
    /\ In (station 20 20) (leaf_points (root self))
    /\ contains_point stale (station 20 20) = false
    /\ mbr_covers_subtree (root self) = false
    /\ every_node mbr_covers_subtree (root self) = false.
Proof.
  eexists. eexists. split; [vm_compute; reflexivity |].
  split; [reflexivity |].
  split; [simpl; tauto |].
  split; vm_compute; auto.
Qed.

(** The same tree, searched: a query centred on the seventh station
    itself, radius 1 km, stops at the root and finds nothing, whatever
    the functions of [math] compute. *)
Lemma stale_root_hides_station_from_search :
  forall (M : Math QNum),
  exists self : RTree,
    insert_all (RTree__init__ default_max_entries) seven_stations = Ok self
    /\ In (station 20 20) (leaf_points (root self))
    /\ (search_square self (station 20 20) 1%Q = Ok []
        \/ search_square self (station 20 20) 1%Q = Raise ZeroDivisionError).
Proof.
  intros M. eexists. split; [vm_compute; reflexivity |].
  split; [simpl; tauto |].
  unfold search_square.
  destruct (feq _ _); [right; reflexivity | left].
  reflexivity.
Qed.



(** C10.  [min_entries] is [max(2, max_entries // 2)] at construction.
    Neither [insert] nor [search_square] reads it: with any other value
    in the field they return the same, [insert] carrying the field
    along; [_split_node] and [_handle_overflow] are not given it at all.
    No minimum fill holds: with the default [max_entries = 5], the sixth
    insertion of [six_stations] splits the root leaf into a leaf of one
    entry and a leaf of five, and [min_entries] is 2. *)
Theorem min_entries_not_enforced :
  (forall (F : Num) (max_entries : Z),
      min_entries (RTree__init__ max_entries)
      = Z.max 2 (max_entries / 2))
  /\ (forall (F : Num) (self : RTree) (m : Z) (point : Point),
         insert (set_min_entries self m) point
         = match insert self point with
           | Ok self' => Ok (set_min_entries self' m)
           | Raise e => Raise e
           end)
  /\ (forall (F : Num) (M : Math F) (self : RTree) (m : Z)
             (center : Point) (radius_km : float),
         search_square (set_min_entries self m) center radius_km
         = search_square self center radius_km)
  /\ (exists (self : RTree) m b1 m1 e1 b2 m2 entries2,
         insert_all (RTree__init__ default_max_entries) six_stations = Ok self
         /\ root self = Internal m [(b1, Leaf m1 [e1]); (b2, Leaf m2 entries2)]
         /\ length entries2 = 5
         /\ (1 < min_entries self)%Z).
Proof.
  split; [reflexivity |]. split; [| split].
  - intros F self m point. unfold insert. simpl.
    destruct (_choose_leaf (root self) [] (from_point point))
      as [[[m0 es] up] | e]; simpl; [| reflexivity].
    destruct (overflows _ _); [| reflexivity].
    destruct (_handle_overflow _ _ _); reflexivity.
  - reflexivity.
  - do 8 eexists. split; [vm_compute; reflexivity |].
    split; [reflexivity |]. split; [reflexivity | reflexivity].
Qed.



(** C6, as stated, fails on a list of one entry: it is not empty, both
    axes have zero width, and the two seeds are the same index 0, not two
    entries and not distinct. *)
Lemma single_entry_seeds_coincide :
  leaf_entries_of [station 0 0] <> []
  /\ chosen_axis (leaf_entries_of [station 0 0]) = Ok None
  /\ _linear_pick_seeds (leaf_entries_of [station 0 0]) = Ok (0, 0).
Proof.
  split; [discriminate |]. split; vm_compute; reflexivity.
Qed.

(** C6, amended.  For every non-empty entry list, seed picking returns
    two positions.  With two entries or more they are distinct; with one
    entry both are 0.  When no axis has positive width they are 0 and 1
    (0 and 0 for one entry).  Otherwise take the axis of greatest
    normalized separation among those of positive width, latitude on a
    tie: the first seed is an entry whose minimum on that axis is the
    greatest of the minima, and the second seed is an entry whose maximum
    is the least of the maxima, unless that would be the first seed
    again, in which case it is the next position, wrapping around. *)
Theorem seeds_on_axis_of_greatest_separation :
  forall (F : Num) (O : NumOrder F) (A : Type) (entries : list (MBR * A)),
    entries <> [] ->
    exists (s1 s2 : nat) (ax : option axis),
      _linear_pick_seeds entries = Ok (s1, s2)
      /\ chosen_axis entries = Ok ax
      /\ (2 <= length entries -> s1 <> s2)
      /\ (length entries = 1 -> s1 = 0 /\ s2 = 0)
      /\ match ax with
         | None => s1 = 0 /\ s2 = (if 1 <? length entries then 1 else 0)
         | Some a =>
             exists h l e1,
               highest_low a entries = Ok h /\ lowest_high a entries = Ok l
               /\ nth_error entries s1 = Some e1
               /\ feq (lo_of a (fst e1)) h = true
               /\ ((exists e2, nth_error entries s2 = Some e2
                               /\ feq (hi_of a (fst e2)) l = true)
                   \/ (feq (hi_of a (fst e1)) l = true
                       /\ s2 = (s1 + 1) mod length entries))
         end.
Proof.
  intros F O A entries Hne.
  destruct (_linear_pick_seeds_spec entries Hne) as (s1 & s2 & ax & E & C & H).
  destruct (_linear_pick_seeds_Ok entries Hne)
    as (s1' & s2' & E' & B1 & B2 & D).
  rewrite E in E'. inversion E'; subst s1' s2'.
  exists s1, s2, ax. repeat split; try assumption; lia.
Qed.

Lemma seeds_on_axis_of_greatest_separation_witness :
  exists (s1 s2 : nat) (ax : option axis),
    _linear_pick_seeds (leaf_entries_of six_stations) = Ok (s1, s2)
    /\ chosen_axis (leaf_entries_of six_stations) = Ok ax
    /\ (2 <= length (leaf_entries_of six_stations) -> s1 <> s2)
    /\ (length (leaf_entries_of six_stations) = 1 -> s1 = 0 /\ s2 = 0)
    /\ match ax with
       | None =>
           s1 = 0
           /\ s2 = (if 1 <? length (leaf_entries_of six_stations)
                    then 1 else 0)
       | Some a =>
           exists h l e1,
             highest_low a (leaf_entries_of six_stations) = Ok h
             /\ lowest_high a (leaf_entries_of six_stations) = Ok l
             /\ nth_error (leaf_entries_of six_stations) s1 = Some e1
             /\ feq (lo_of a (fst e1)) h = true
             /\ ((exists e2,
                     nth_error (leaf_entries_of six_stations) s2 = Some e2
                     /\ feq (hi_of a (fst e2)) l = true)
                 \/ (feq (hi_of a (fst e1)) l = true
                     /\ s2 = (s1 + 1)
                             mod length (leaf_entries_of six_stations)))
       end.
Proof.
  apply (seeds_on_axis_of_greatest_separation QNum QNumOrder _
           (leaf_entries_of six_stations)).
  discriminate.
Defined.

(** * Further properties of the code *)

(** ** Rectangles *)

Section MinMaxFacts.

Context {F : Num} {O : NumOrder F}.

Lemma py_min_cases (a b : float) : py_min a b = a \/ py_min a b = b.
Proof. unfold py_min. destruct (flt b a); auto. Qed.

Lemma py_max_cases (a b : float) : py_max a b = a \/ py_max a b = b.
Proof. unfold py_max. destruct (flt a b); auto. Qed.

Lemma py_min_le_l (a b : float) : fle (py_min a b) a = true.
Proof.
  unfold py_min. destruct (flt b a) eqn:E.
  - apply flt_true_fle. exact E.
  - apply fle_refl.
Qed.

Lemma py_min_le_r (a b : float) : fle (py_min a b) b = true.
Proof.
  unfold py_min. destruct (flt b a) eqn:E.
  - apply fle_refl.
  - apply flt_false_fle. exact E.
Qed.

Lemma py_max_ge_l (a b : float) : fle a (py_max a b) = true.
Proof.
  unfold py_max. destruct (flt a b) eqn:E.
  - apply flt_true_fle. exact E.
  - apply fle_refl.
Qed.

Lemma py_max_ge_r (a b : float) : fle b (py_max a b) = true.
Proof.
  unfold py_max. destruct (flt a b) eqn:E.
  - apply fle_refl.
  - apply flt_false_fle. exact E.
Qed.

Lemma py_min_glb (a b c : float) :
  fle c a = true -> fle c b = true -> fle c (py_min a b) = true.
Proof. intros. destruct (py_min_cases a b) as [-> | ->]; assumption. Qed.

Lemma py_max_lub (a b c : float) :
  fle a c = true -> fle b c = true -> fle (py_max a b) c = true.
Proof. intros. destruct (py_max_cases a b) as [-> | ->]; assumption. Qed.

Lemma py_min_same (a : float) : py_min a a = a.
Proof. unfold py_min. destruct (flt a a); reflexivity. Qed.

Lemma py_max_same (a : float) : py_max a a = a.
Proof. unfold py_max. destruct (flt a a); reflexivity. Qed.

Lemma encloses_iff (outer inner : MBR) :
  encloses outer inner = true <->
  (fle (min_lat outer) (min_lat inner) = true
   /\ fle (max_lat inner) (max_lat outer) = true)
  /\ (fle (min_lon outer) (min_lon inner) = true
      /\ fle (max_lon inner) (max_lon outer) = true).
Proof. unfold encloses. rewrite !andb_true_iff. tauto. Qed.

Lemma contains_point_iff (m : MBR) (p : Point) :
  contains_point m p = true <->
  (fle (min_lat m) (lat p) = true /\ fle (lat p) (max_lat m) = true)
  /\ (fle (min_lon m) (lon p) = true /\ fle (lon p) (max_lon m) = true).
Proof. unfold contains_point. rewrite !andb_true_iff. tauto. Qed.

Lemma encloses_refl (m : MBR) : encloses m m = true.
Proof. apply encloses_iff. repeat split; apply fle_refl. Qed.

Lemma encloses_trans (a b c : MBR) :
  encloses a b = true -> encloses b c = true -> encloses a c = true.
Proof.
  rewrite !encloses_iff. intros [[A1 A2] [A3 A4]] [[B1 B2] [B3 B4]].
  repeat split; eapply fle_trans; eassumption.
Qed.

Lemma encloses_contains (outer inner : MBR) (p : Point) :
  encloses outer inner = true -> contains_point inner p = true ->
  contains_point outer p = true.
Proof.
  rewrite encloses_iff, !contains_point_iff.
  intros [[A1 A2] [A3 A4]] [[B1 B2] [B3 B4]].
  repeat split; eapply fle_trans; eassumption.
Qed.

Lemma expand_encloses_l (self other : MBR) :
  encloses (expand_to_include_mbr self other) self = true.
Proof.
  apply encloses_iff. simpl.
  repeat split; (apply py_min_le_l || apply py_max_ge_l).
Qed.

Lemma expand_encloses_r (self other : MBR) :
  encloses (expand_to_include_mbr self other) other = true.
Proof.
  apply encloses_iff. simpl.
  repeat split; (apply py_min_le_r || apply py_max_ge_r).
Qed.

Lemma expand_least (self other m : MBR) :
  encloses m self = true -> encloses m other = true ->
  encloses m (expand_to_include_mbr self other) = true.
Proof.
  rewrite !encloses_iff. simpl.
  intros [[A1 A2] [A3 A4]] [[B1 B2] [B3 B4]].
  repeat split; (apply py_min_glb || apply py_max_lub); assumption.
Qed.

End MinMaxFacts.

(** X1.  [expand_to_include_mbr] returns the smallest rectangle that
    encloses both of its arguments: it encloses each of them, every
    rectangle that encloses both encloses it, every point contained in
    one of them is contained in it, and expanding a rectangle by itself
    changes nothing.  [expand_to_include] is the same operation for the
    degenerate rectangle of a point, so its result contains that point. *)
Theorem expand_is_least_enclosing_rectangle :
  forall (F : Num) (O : NumOrder F) (self other : MBR),
    encloses (expand_to_include_mbr self other) self = true
    /\ encloses (expand_to_include_mbr self other) other = true
    /\ (forall m, encloses m self = true -> encloses m other = true ->
                  encloses m (expand_to_include_mbr self other) = true)
    /\ (forall p, contains_point self p = true
                  \/ contains_point other p = true ->
                  contains_point (expand_to_include_mbr self other) p = true)
    /\ expand_to_include_mbr self self = self
    /\ (forall p, expand_to_include self p
                  = expand_to_include_mbr self (from_point p)
                  /\ contains_point (expand_to_include self p) p = true).
Proof.
  intros F O self other.
  split; [apply expand_encloses_l |].
  split; [apply expand_encloses_r |].
  split; [intros m; apply expand_least |].
  split; [| split].
  - intros p [H | H];
      (eapply encloses_contains; [| exact H]);
      [apply expand_encloses_l | apply expand_encloses_r].
  - destruct self. unfold expand_to_include_mbr. simpl.
    rewrite !py_min_same, !py_max_same. reflexivity.
  - intros p. split; [reflexivity |].
    apply contains_point_iff. simpl.
    repeat split;
      (apply py_min_le_r || apply py_max_ge_r).
Qed.

Lemma expand_is_least_enclosing_rectangle_witness :
  let self := box 0 4 0 4 in
  let other := box 10 20 10 20 in
  encloses (expand_to_include_mbr self other) self = true
  /\ encloses (expand_to_include_mbr self other) other = true
  /\ (forall m, encloses m self = true -> encloses m other = true ->
                encloses m (expand_to_include_mbr self other) = true)
  /\ (forall p, contains_point self p = true
                \/ contains_point other p = true ->
                contains_point (expand_to_include_mbr self other) p = true)
  /\ expand_to_include_mbr self self = self
  /\ (forall p, expand_to_include self p
                = expand_to_include_mbr self (from_point p)
                /\ contains_point (expand_to_include self p) p = true).
Proof.
  exact (expand_is_least_enclosing_rectangle QNum QNumOrder
           (box 0 4 0 4) (box 10 20 10 20)).
Defined.

Section UnionFacts.

Context {F : Num} {O : NumOrder F}.

Lemma fold_expand_union {A : Type} (rest : list (MBR * A)) :
  forall m0,
    let m := fold_left (fun mbr e => expand_to_include_mbr mbr (fst e))
                       rest m0 in
    encloses m m0 = true
    /\ Forall (fun e => encloses m (fst e) = true) rest
    /\ (forall r, encloses r m0 = true ->
                  Forall (fun e => encloses r (fst e) = true) rest ->
                  encloses r m = true).
Proof.
  induction rest as [| e rest IH]; intros m0; simpl.
  - split; [apply encloses_refl |]. split; [constructor | auto].
  - destruct (IH (expand_to_include_mbr m0 (fst e))) as (H1 & H2 & H3).
    split; [| split].
    + eapply encloses_trans; [exact H1 | apply expand_encloses_l].
    + constructor; [| exact H2].
      eapply encloses_trans; [exact H1 | apply expand_encloses_r].
    + intros r Hr HF. inversion HF; subst.
      apply H3; [| assumption]. apply expand_least; assumption.
Qed.

Lemma fold_py_min_le (l : list float) :
  forall x y, In y (x :: l) -> fle (fold_left py_min l x) y = true.
Proof.
  induction l as [| a l IH]; intros x y Hy; simpl.
  - destruct Hy as [<- | []]. apply fle_refl.
  - destruct Hy as [<- | [<- | Hy]].
    + eapply fle_trans; [apply IH; left; reflexivity | apply py_min_le_l].
    + eapply fle_trans; [apply IH; left; reflexivity | apply py_min_le_r].
    + apply IH. right. exact Hy.
Qed.

Lemma fold_py_max_ge (l : list float) :
  forall x y, In y (x :: l) -> fle y (fold_left py_max l x) = true.
Proof.
  induction l as [| a l IH]; intros x y Hy; simpl.
  - destruct Hy as [<- | []]. apply fle_refl.
  - destruct Hy as [<- | [<- | Hy]].
    + eapply fle_trans; [apply py_max_ge_l | apply IH; left; reflexivity].
    + eapply fle_trans; [apply py_max_ge_r | apply IH; left; reflexivity].
    + apply IH. right. exact Hy.
Qed.

Lemma update_mbr_union {A : Type} (entries : list (MBR * A)) m :
  update_mbr entries = Some m ->
  Forall (fun e => encloses m (fst e) = true) entries
  /\ (forall r, Forall (fun e => encloses r (fst e) = true) entries ->
                encloses r m = true).
Proof.
  intros H. destruct entries as [| first rest]; [discriminate |].
  simpl in H. inversion H; subst m; clear H.
  destruct (fold_expand_union rest (fst first)) as (H1 & H2 & H3).
  split.
  - constructor; assumption.
  - intros r HF. inversion HF; subst. apply H3; assumption.
Qed.

End UnionFacts.

(** X2.  [update_mbr] stores [None] exactly when the node has no entry.
    Otherwise it stores the union of the entries' rectangles: a rectangle
    that encloses the rectangle of every entry and that is enclosed by
    every rectangle doing so. *)
Theorem update_mbr_is_union_of_entries :
  forall (F : Num) (O : NumOrder F) (A : Type) (entries : list (MBR * A)),
    (update_mbr entries = None <-> entries = [])
    /\ (forall m, update_mbr entries = Some m ->
          Forall (fun e => encloses m (fst e) = true) entries
          /\ (forall r, Forall (fun e => encloses r (fst e) = true) entries ->
                        encloses r m = true)).
Proof.
  intros F O A entries. split.
  - destruct entries; simpl; split; intros H; congruence.
  - intros m H. apply update_mbr_union. exact H.
Qed.

Lemma update_mbr_is_union_of_entries_witness :
  let entries := [(box 0 4 0 4, tt); (box 10 20 10 20, tt)] in
  (update_mbr entries = None <-> entries = [])
  /\ (forall m, update_mbr entries = Some m ->
        Forall (fun e => encloses m (fst e) = true) entries
        /\ (forall r, Forall (fun e => encloses r (fst e) = true) entries ->
                      encloses r m = true)).
Proof.
  exact (update_mbr_is_union_of_entries QNum QNumOrder unit
           [(box 0 4 0 4, tt); (box 10 20 10 20, tt)]).
Defined.

(** X3.  [MBR.from_points] never raises.  For an empty list it returns
    [MBR(0, 0, 0, 0)], for one point the degenerate rectangle of the
    point.  For a non-empty list it returns the tightest rectangle around
    the points: it contains each of them, and every rectangle that
    contains them all encloses it. *)
Theorem from_points_is_bounding_rectangle :
  forall (F : Num) (O : NumOrder F) (points : list Point),
  exists m : MBR,
    from_points points = Ok m
    /\ (points = [] ->
        m = {| min_lat := fconst 0; max_lat := fconst 0;
               min_lon := fconst 0; max_lon := fconst 0 |})
    /\ (forall p, points = [p] -> m = from_point p)
    /\ (forall p, In p points -> contains_point m p = true)
    /\ (points <> [] ->
        forall r, (forall p, In p points -> contains_point r p = true) ->
                  encloses r m = true).
Proof.
  intros F O points. destruct points as [| p0 rest].
  - eexists. split; [reflexivity |].
    split; [reflexivity |]. split; [discriminate |].
    split; [intros p [] | congruence].
  - eexists. split; [reflexivity |].
    split; [discriminate |]. split; [| split].
    + intros p H. inversion H; subst. reflexivity.
    + intros p Hp. apply contains_point_iff. simpl.
      assert (Hlat : In (lat p) (lat p0 :: map lat rest)).
      { destruct Hp as [<- | Hp]; [left; reflexivity |].
        right. apply in_map. exact Hp. }
      assert (Hlon : In (lon p) (lon p0 :: map lon rest)).
      { destruct Hp as [<- | Hp]; [left; reflexivity |].
        right. apply in_map. exact Hp. }
      repeat split;
        (apply fold_py_min_le || apply fold_py_max_ge); assumption.
    + intros _ r Hr. apply encloses_iff. cbn.
      assert (G : forall (f : Point -> float) x,
                 In x (f p0 :: map f rest) ->
                 exists p, In p (p0 :: rest) /\ f p = x).
      { intros f x [<- | Hx]; [exists p0; simpl; auto |].
        apply in_map_iff in Hx. destruct Hx as (p & <- & Hp).
        exists p. simpl. auto. }
      repeat split.
      * destruct (G lat _ (fold_py_min_In (map lat rest) (lat p0)))
          as (p & Hp & E).
        apply Hr in Hp. apply contains_point_iff in Hp.
        destruct Hp as [[A1 A2] [A3 A4]]. rewrite E in A1. exact A1.
      * destruct (G lat _ (fold_py_max_In (map lat rest) (lat p0)))
          as (p & Hp & E).
        apply Hr in Hp. apply contains_point_iff in Hp.
        destruct Hp as [[A1 A2] [A3 A4]]. rewrite E in A2. exact A2.
      * destruct (G lon _ (fold_py_min_In (map lon rest) (lon p0)))
          as (p & Hp & E).
        apply Hr in Hp. apply contains_point_iff in Hp.
        destruct Hp as [[A1 A2] [A3 A4]]. rewrite E in A3. exact A3.
      * destruct (G lon _ (fold_py_max_In (map lon rest) (lon p0)))
          as (p & Hp & E).
        apply Hr in Hp. apply contains_point_iff in Hp.
        destruct Hp as [[A1 A2] [A3 A4]]. rewrite E in A4. exact A4.
Qed.

Lemma from_points_is_bounding_rectangle_witness :
  exists m : MBR,
    from_points seven_stations = Ok m
    /\ (seven_stations = [] ->
        m = {| min_lat := fconst 0; max_lat := fconst 0;
               min_lon := fconst 0; max_lon := fconst 0 |})
    /\ (forall p, seven_stations = [p] -> m = from_point p)
    /\ (forall p, In p seven_stations -> contains_point m p = true)
    /\ (seven_stations <> [] ->
        forall r, (forall p, In p seven_stations ->
                             contains_point r p = true) ->
                  encloses r m = true).
Proof.
  exact (from_points_is_bounding_rectangle QNum QNumOrder seven_stations).
Defined.

(** X4.  For a well-formed rectangle and a square whose lower bounds do
    not exceed its upper bounds (half sides not negative),
    [intersects_square] answers [True] exactly when some point lies both
    in the rectangle and in the closed square; touching edges count. *)
Theorem intersects_square_iff_common_point :
  forall (F : Num) (O : NumOrder F) (mbr : MBR)
         (center_lat center_lon half_side_lat half_side_lon : float),
    well_formed mbr = true ->
    fle (fsub center_lat half_side_lat) (fadd center_lat half_side_lat)
      = true ->
    fle (fsub center_lon half_side_lon) (fadd center_lon half_side_lon)
      = true ->
    (intersects_square mbr center_lat center_lon half_side_lat half_side_lon
     = true
     <-> exists p : Point,
           contains_point mbr p = true
           /\ in_square p center_lat center_lon half_side_lat half_side_lon
              = true).
Proof.
  intros F O mbr clat clon hlat hlon Hwf Hlat Hlon.
  unfold well_formed in Hwf. apply andb_true_iff in Hwf.
  destruct Hwf as [W1 W2].
  split.
  - unfold intersects_square. intros H.
    destruct (flt (max_lat mbr) (fsub clat hlat)) eqn:E1; [discriminate |].
    destruct (flt (fadd clat hlat) (min_lat mbr)) eqn:E2; [discriminate |].
    destruct (flt (max_lon mbr) (fsub clon hlon)) eqn:E3; [discriminate |].
    destruct (flt (fadd clon hlon) (min_lon mbr)) eqn:E4; [discriminate |].
    apply flt_false_fle in E1, E2, E3, E4.
    exists {| lat := py_max (min_lat mbr) (fsub clat hlat);
              lon := py_max (min_lon mbr) (fsub clon hlon);
              data := [] |}.
    split.
    + apply contains_point_iff. simpl.
      repeat split;
        (apply py_max_ge_l || (apply py_max_lub; assumption)).
    + unfold in_square. simpl. rewrite !andb_true_iff.
      repeat split;
        (apply py_max_ge_r || (apply py_max_lub; assumption)).
  - intros (p & Hc & Hs).
    eapply contained_in_square_intersects; eassumption.
Qed.

Lemma intersects_square_iff_common_point_witness :
  intersects_square (box 0 10 0 10) 11%Q 5%Q 1%Q 1%Q = true
  <-> exists p : Point,
        contains_point (box 0 10 0 10) p = true
        /\ in_square p 11%Q 5%Q 1%Q 1%Q = true.
Proof.
  apply (intersects_square_iff_common_point QNum QNumOrder (box 0 10 0 10)
           11%Q 5%Q 1%Q 1%Q); reflexivity.
Defined.

(** ** What insertion keeps true of every node *)

Section TidyFacts.

Context {F : Num}.

Lemma all_nodes_here P node : all_nodes P node -> P node.
Proof. intros H. inversion H; assumption. Qed.

Lemma all_nodes_impl (P Q : RTreeNode -> Prop) :
  (forall n, P n -> Q n) -> forall node, all_nodes P node -> all_nodes Q node.
Proof.
  intros HPQ.
  induction node as [m es | m es IH] using RTreeNode_induction; intros H.
  - inversion H; subst. constructor. auto.
  - inversion H as [| m' es' HP HF]; subst. constructor; [auto |].
    rewrite Forall_forall in *. intros e He. apply IH; auto.
Qed.

Lemma every_node_of_all_nodes (p : RTreeNode -> bool) :
  forall node,
    all_nodes (fun n => p n = true) node -> every_node p node = true.
Proof.
  induction node as [m es | m es IH] using RTreeNode_induction; intros H.
  - inversion H; subst. simpl. rewrite andb_true_r. assumption.
  - inversion H as [| m' es' HP HF]; subst. simpl.
    apply andb_true_iff. split; [assumption |].
    apply forallb_forall. intros e He.
    rewrite Forall_forall in IH, HF. apply IH; auto.
Qed.

Lemma all_nodes_plug_inv P up :
  forall node, all_nodes P (plug node up) -> all_nodes P node.
Proof.
  induction up as [| fr up IH]; intros node H; simpl in H.
  - exact H.
  - apply IH in H. unfold fill in H.
    inversion H as [| m es HP HF]; subst.
    apply Forall_hole in HF. apply HF.
Qed.

Lemma fold_left_map {A B C : Type} (f : A -> B -> A) (g : C -> B) l :
  forall a, fold_left f (map g l) a = fold_left (fun a x => f a (g x)) l a.
Proof.
  induction l as [| x l IH]; intros a; simpl; [reflexivity | apply IH].
Qed.

Lemma update_mbr_rectangles {A : Type} (entries : list (MBR * A)) :
  update_mbr entries = update_mbr (map (fun e => (fst e, tt)) entries).
Proof.
  destruct entries as [| first rest]; simpl; [reflexivity |].
  rewrite fold_left_map. reflexivity.
Qed.

Lemma update_mbr_fill fr node node' :
  update_mbr (f_before fr ++ (f_entry_mbr fr, node) :: f_after fr)
  = update_mbr (f_before fr ++ (f_entry_mbr fr, node') :: f_after fr).
Proof.
  rewrite (update_mbr_rectangles (_ ++ (_, node) :: _)).
  rewrite (update_mbr_rectangles (_ ++ (_, node') :: _)).
  rewrite !map_app. reflexivity.
Qed.

Lemma tidy_plug_replace up :
  forall node node',
    all_nodes tidy (plug node up) -> all_nodes tidy node' ->
    all_nodes tidy (plug node' up).
Proof.
  induction up as [| fr up IH]; intros node node' H H'; simpl in *.
  - exact H'.
  - apply (IH (fill fr node)); [exact H |].
    apply all_nodes_plug_inv in H. unfold fill in *.
    inversion H as [| m es [HU HP] HF]; subst.
    constructor.
    + split; [| exact I]. simpl in *.
      rewrite HU. apply update_mbr_fill.
    + apply Forall_hole. apply Forall_hole in HF. tauto.
Qed.

Lemma tidy_recomputed node :
  inside_tidy node ->
  match node with
  | Leaf _ entries => all_nodes tidy (Leaf (update_mbr entries) entries)
  | Internal _ entries =>
      all_nodes tidy (Internal (update_mbr entries) entries)
  end.
Proof.
  destruct node as [m es | m es]; simpl; intros H; constructor;
    try (split; simpl; auto); assumption.
Qed.

Lemma inside_of_tidy node : all_nodes tidy node -> inside_tidy node.
Proof.
  intros H. inversion H as [m es [_ HP] | m es _ HF]; subst; simpl; auto.
Qed.

(** The two halves of a split, as [_split_node] builds them. *)
Lemma _split_node_halves node node1 node2 :
  _split_node node = Ok (node1, node2) ->
  (exists m entries e1 e2,
      node = Leaf m entries /\ split_entries entries = Ok (e1, e2)
      /\ node1 = Leaf (update_mbr e1) e1 /\ node2 = Leaf (update_mbr e2) e2)
  \/ (exists m entries e1 e2,
        node = Internal m entries /\ split_entries entries = Ok (e1, e2)
        /\ node1 = Internal (update_mbr e1) e1
        /\ node2 = Internal (update_mbr e2) e2).
Proof.
  destruct node as [m es | m es]; simpl; intros H; inv_bind H;
    destruct a as [e1 e2]; inversion H; subst; [left | right];
    exists m, es, e1, e2; auto.
Qed.

Lemma split_entries_split_rel {A : Type} (entries e1 e2 : list (MBR * A)) :
  entries <> [] -> split_entries entries = Ok (e1, e2) ->
  split_rel entries e1 e2.
Proof.
  intros Hne H. destruct (split_entries_rel entries Hne) as (a & b & E & R).
  rewrite E in H. inversion H; subst. exact R.
Qed.

Lemma _split_node_tidy node node1 node2 :
  1 <= entry_count node -> inside_tidy node ->
  _split_node node = Ok (node1, node2) ->
  all_nodes tidy node1 /\ all_nodes tidy node2.
Proof.
  intros Hc Hin H.
  destruct (_split_node_halves _ _ _ H)
    as [(m & es & e1 & e2 & -> & E & -> & ->)
       | (m & es & e1 & e2 & -> & E & -> & ->)];
    simpl in Hc, Hin;
    (assert (R : split_rel es e1 e2)
      by (apply split_entries_split_rel;
          [destruct es; simpl in Hc; [lia | discriminate] | exact E]));
    destruct (split_rel_Forall _ _ _ _ R Hin) as [F1 F2].
  - split; [apply (tidy_recomputed (Leaf None e1))
           | apply (tidy_recomputed (Leaf None e2))]; assumption.
  - split; [apply (tidy_recomputed (Internal None e1))
           | apply (tidy_recomputed (Internal None e2))]; assumption.
Qed.

Lemma entry_for_Ok node m node' :
  entry_for node = Ok (m, node') -> node' = node /\ node_mbr node = Some m.
Proof.
  unfold entry_for. destruct (node_mbr node); intros H; inversion H; auto.
Qed.

Lemma _handle_overflow_tidy self_max_entries up :
  forall node node0 new_root,
    all_nodes tidy (plug node0 up) ->
    inside_tidy node -> 1 <= entry_count node ->
    _handle_overflow self_max_entries node up = Ok new_root ->
    all_nodes tidy new_root.
Proof.
  induction up as [| fr up IH]; intros node node0 r H0 Hin Hc H;
    simpl in H.
  - inv_bind H. destruct a as [n1 n2]. inv_bind H. inv_bind H.
    destruct a as [m1 n1']. destruct a0 as [m2 n2'].
    apply entry_for_Ok in E0, E1. destruct E0 as [-> _], E1 as [-> _].
    destruct (_split_node_tidy _ _ _ Hc Hin E) as [T1 T2].
    inversion H; subst.
    apply (tidy_recomputed (Internal None [(m1, n1); (m2, n2)])).
    simpl. repeat constructor; assumption.
  - inv_bind H. destruct a as [n1 n2]. inv_bind H. inv_bind H.
    destruct a as [m1 n1']. destruct a0 as [m2 n2'].
    apply entry_for_Ok in E0, E1. destruct E0 as [-> _], E1 as [-> _].
    destruct (_split_node_tidy _ _ _ Hc Hin E) as [T1 T2].
    simpl in H0.
    assert (Hsib : Forall (fun e => all_nodes tidy (snd e))
                     ((f_before fr ++ f_after fr) ++ [(m1, n1); (m2, n2)])).
    { pose proof (all_nodes_plug_inv _ _ _ H0) as Hf. unfold fill in Hf.
      inversion Hf as [| m es _ HF]; subst.
      apply Forall_hole in HF. apply Forall_app. split; [apply HF |].
      repeat constructor; assumption. }
    destruct (overflows _ _).
    + apply (IH _ (fill fr node0)) in H; try assumption.
      simpl. rewrite length_app. simpl. lia.
    + inversion H; subst.
      apply (tidy_plug_replace up (fill fr node0)); [exact H0 |].
      apply (tidy_recomputed (Internal None _)). exact Hsib.
Qed.

Lemma insert_tidy (self self' : RTree) (point : Point) :
  all_nodes tidy (root self) ->
  insert self point = Ok self' ->
  all_nodes tidy (root self').
Proof.
  intros HT H. unfold insert in H. inv_bind H. destruct a as [[m es] up].
  destruct (_choose_leaf_frames _ _ _ _ _ _ E) as (frames & -> & P).
  rewrite app_nil_r in *. rewrite <- P in HT.
  assert (Hin : inside_tidy
                  (Leaf None (es ++ [(from_point point, point)]))).
  { simpl. apply Forall_app. split.
    - apply all_nodes_plug_inv in HT. apply inside_of_tidy in HT. exact HT.
    - repeat constructor. }
  destruct (overflows _ _).
  - inv_bind H. inversion H; subst; clear H. simpl.
    refine (_handle_overflow_tidy _ frames _ (Leaf m es) _ HT _ _ E0);
      [exact Hin | simpl; rewrite length_app; simpl; lia].
  - inversion H; subst; clear H. simpl.
    apply (tidy_plug_replace frames (Leaf m es)); [exact HT |].
    apply (tidy_recomputed (Leaf None _)). exact Hin.
Qed.

Lemma insert_all_tidy (points : list Point) :
  forall self self' : RTree,
    all_nodes tidy (root self) ->
    insert_all self points = Ok self' ->
    all_nodes tidy (root self').
Proof.
  induction points as [| p rest IH]; intros self self' HT H; simpl in H.
  - inversion H; subst. exact HT.
  - inv_bind H. eapply IH; [| exact H]. eapply insert_tidy; eassumption.
Qed.

End TidyFacts.

(** X5.  After any sequence of insertions into a fresh tree, whatever
    [max_entries] is, the cached rectangle of every node is what
    [update_mbr] gives on the entries the node holds (so [None] only in an
    empty root leaf), and in every leaf each entry pairs a point with the
    degenerate rectangle of that point. *)
Theorem every_node_mbr_is_union_of_its_entries :
  forall (F : Num) (max_entries : Z) (points : list Point),
  exists self : RTree,
    insert_all (RTree__init__ max_entries) points = Ok self
    /\ all_nodes (fun node => mbr_is_union node /\ entries_are_points node)
                 (root self).
Proof.
  intros F max_entries points.
  destruct (insert_all_uniform points (RTree__init__ max_entries) 0)
    as (self & h & E & _); [constructor |].
  exists self. split; [exact E |].
  apply (insert_all_tidy points (RTree__init__ max_entries) self);
    [| exact E].
  simpl. constructor. split; simpl; [reflexivity | constructor].
Qed.

Section LeafCoverFacts.

Context {F : Num} {O : NumOrder F}.

Lemma tidy_leaf_covers node : tidy node -> leaf_covers node = true.
Proof.
  destruct node as [m es | m es]; [| reflexivity].
  intros [HU HP]. simpl in *. subst m.
  destruct (update_mbr es) as [m |] eqn:E.
  - simpl. apply forallb_forall. intros p Hp.
    apply in_map_iff in Hp. destruct Hp as (e & <- & He).
    destruct (update_mbr_union es m E) as [HF _].
    rewrite Forall_forall in HF, HP.
    specialize (HF e He). rewrite (HP e He) in HF. exact HF.
  - apply update_mbr_None in E. subst. reflexivity.
Qed.

End LeafCoverFacts.

(** X6.  After any sequence of insertions into a fresh tree, the cached
    rectangle of every leaf contains every point stored in that leaf.
    (It is the rectangles of internal nodes that insertion lets go
    stale.) *)
Theorem every_leaf_mbr_covers_its_points :
  forall (F : Num) (O : NumOrder F) (max_entries : Z) (points : list Point),
  exists self : RTree,
    insert_all (RTree__init__ max_entries) points = Ok self
    /\ every_node leaf_covers (root self) = true.
Proof.
  intros F O max_entries points.
  destruct (insert_all_uniform points (RTree__init__ max_entries) 0)
    as (self & h & E & _); [constructor |].
  exists self. split; [exact E |].
  apply every_node_of_all_nodes.
  apply (all_nodes_impl tidy); [intros n; apply tidy_leaf_covers |].
  apply (insert_all_tidy points (RTree__init__ max_entries) self);
    [| exact E].
  simpl. constructor. split; simpl; [reflexivity | constructor].
Qed.

Lemma every_leaf_mbr_covers_its_points_witness :
  exists self : RTree,
    insert_all (RTree__init__ 5) seven_stations = Ok self
    /\ every_node leaf_covers (root self) = true.
Proof.
  exact (every_leaf_mbr_covers_its_points QNum QNumOrder 5 seven_stations).
Defined.

(** ** Trees that are still one leaf *)

Section SmallTreeFacts.

Context {F : Num}.

Lemma insert_into_root_leaf (self : RTree) (point : Point) m entries :
  root self = Leaf m entries ->
  (Z.of_nat (S (length entries)) <= max_entries self)%Z ->
  insert self point
  = Ok (set_root self
          (Leaf (update_mbr (entries ++ [(from_point point, point)]))
                (entries ++ [(from_point point, point)]))).
Proof.
  intros Hr Hc. unfold insert. rewrite Hr. simpl.
  unfold overflows.
  destruct (Z.gtb_spec
              (Z.of_nat (length (entries ++ [(from_point point, point)])))
              (max_entries self)) as [Hov | Hov]; [| reflexivity].
  rewrite length_app in Hov. simpl in Hov. lia.
Qed.

Lemma insert_all_into_root_leaf (points : list Point) :
  forall (self : RTree) m entries,
    root self = Leaf m entries ->
    (Z.of_nat (length entries + length points) <= max_entries self)%Z ->
    points <> [] ->
    insert_all self points
    = Ok (set_root self
            (Leaf (update_mbr
                     (entries ++ map (fun p => (from_point p, p)) points))
                  (entries ++ map (fun p => (from_point p, p)) points))).
Proof.
  induction points as [| p rest IH]; intros self m es Hr Hc Hne;
    [congruence |].
  simpl insert_all.
  rewrite (insert_into_root_leaf self p m es Hr) by (simpl in Hc; lia).
  simpl bind.
  destruct rest as [| q rest'].
  - reflexivity.
  - rewrite (IH _ (update_mbr (es ++ [(from_point p, p)]))
               (es ++ [(from_point p, p)])).
    + simpl. rewrite <- !app_assoc. reflexivity.
    + reflexivity.
    + simpl in *. rewrite length_app. simpl. lia.
    + discriminate.
Qed.

End SmallTreeFacts.

(** X7.  As long as no more than [max_entries] points have been
    inserted, nothing is split: the tree is a single leaf that holds the
    points in insertion order, each with its degenerate rectangle, under
    the union of those rectangles.  On such a tree [search_square],
    unless it raises [ZeroDivisionError], returns exactly what the
    brute-force scan returns on the inserted points that lie in the closed
    square of the query, in the same order. *)
Theorem tree_within_capacity_is_one_leaf :
  forall (F : Num) (M : Math F) (O : NumOrder F) (max_entries : Z)
         (points : list Point) (center : Point) (radius_km : float),
    (Z.of_nat (length points) <= max_entries)%Z ->
    let entries := map (fun p => (from_point p, p)) points in
    let self := set_root (RTree__init__ max_entries)
                         (Leaf (update_mbr entries) entries) in
    insert_all (RTree__init__ max_entries) points = Ok self
    /\ (feq (fmul (fconst 111) (math_cos (math_radians (lat center))))
            (fconst 0) = false ->
        search_square self center radius_km
        = Ok (linear_scan
                (filter (fun point =>
                           in_square point (lat center) (lon center)
                             (half_side_lat_of radius_km)
                             (half_side_lon_of center radius_km))
                        points)
                center radius_km)).
Proof.
  intros F M O max_entries points center radius_km Hc entries self.
  split.
  - destruct points as [| p rest]; [reflexivity |].
    rewrite (insert_all_into_root_leaf (p :: rest) (RTree__init__ max_entries)
               None []); try reflexivity; try discriminate.
    simpl in *. lia.
  - intros Hd. rewrite search_square_defined by exact Hd.
    rewrite (@walk_complete F M _ _ _ _ _ O).
    + unfold linear_scan, square_hits. simpl.
      unfold entries. rewrite map_map. simpl. rewrite map_id. reflexivity.
    + simpl. rewrite andb_true_r.
      apply (tidy_leaf_covers (Leaf (update_mbr entries) entries)).
      split; simpl; [reflexivity |].
      unfold entries. apply Forall_forall. intros e He.
      apply in_map_iff in He. destruct He as (p & <- & _). reflexivity.
Qed.

Lemma tree_within_capacity_is_one_leaf_witness :
  let entries := map (fun p => (from_point p, p)) two_real_stations in
  let self := set_root (RTree__init__ 5)
                       (Leaf (update_mbr entries) entries) in
  insert_all (RTree__init__ 5) two_real_stations = Ok self
  /\ (feq (fmul (fconst 111)
                (math_cos (math_radians (lat (rstation 0 0)))))
          (fconst 0) = false ->
      search_square self (rstation 0 0) 1%R
      = Ok (linear_scan
              (filter (fun point =>
                         in_square point (lat (rstation 0 0))
                           (lon (rstation 0 0))
                           (half_side_lat_of 1%R)
                           (half_side_lon_of (rstation 0 0) 1%R))
                      two_real_stations)
              (rstation 0 0) 1%R)).
Proof.
  apply (tree_within_capacity_is_one_leaf RNum RMath RNumOrder 5
           two_real_stations (rstation 0 0) 1%R).
  simpl. lia.
Defined.

(** X8.  A tree into which nothing has been inserted has no cached
    rectangle at its root, and [search_square] returns the empty list
    for every centre and every radius (when it returns: a centre at a
    pole raises [ZeroDivisionError] here too). *)
Theorem search_in_fresh_tree_is_empty :
  forall (F : Num) (M : Math F) (max_entries : Z) (center : Point)
         (radius_km : float),
    search_square (RTree__init__ max_entries) center radius_km = Ok []
    \/ (search_square (RTree__init__ max_entries) center radius_km
        = Raise ZeroDivisionError
        /\ feq (fmul (fconst 111) (math_cos (math_radians (lat center))))
               (fconst 0) = true).
Proof.
  intros F M max_entries center radius_km. unfold search_square.
  destruct (feq _ _); [right; auto | left; reflexivity].
Qed.

(** ** Nothing found that the scan would not find *)

Section SubmultisetFacts.

Lemma filter_Permutation {A : Type} (f : A -> bool) (l l' : list A) :
  Permutation l l' -> Permutation (filter f l) (filter f l').
Proof.
  induction 1 as [| x l l' _ IH | x y l | l l' l'' _ IH1 _ IH2]; simpl.
  - constructor.
  - destruct (f x); [constructor |]; exact IH.
  - destruct (f x), (f y); try reflexivity. apply perm_swap.
  - etransitivity; eassumption.
Qed.

Lemma filter_split_Permutation {A : Type} (f : A -> bool) (l : list A) :
  Permutation (filter f l ++ filter (fun x => negb (f x)) l) l.
Proof.
  induction l as [| x l IH]; simpl; [constructor |].
  destruct (f x); simpl.
  - constructor. exact IH.
  - rewrite <- Permutation_middle. constructor. exact IH.
Qed.

Context {F : Num} {M : Math F}.

Variables center_lat center_lon half_side_lat half_side_lon : float.
Variable center_point : Point.

Local Abbreviation walk node results :=
  (_search_square_recursive node center_lat center_lon half_side_lat
     half_side_lon center_point results).
Local Abbreviation hits points :=
  (square_hits points center_lat center_lon half_side_lat half_side_lon
     center_point).

(** What the walk collects is part of the stored points of the square:
    the rest is what the pruned subtrees hold. *)
Lemma walk_part_of_hits node :
  exists pruned,
    Permutation (walk node [] ++ pruned) (hits (leaf_points node)).
Proof.
  induction node as [m es | m es IH] using RTreeNode_induction.
  - simpl. destruct m as [mbr |].
    + destruct (intersects_square _ _ _ _ _); simpl.
      * exists []. rewrite scan_leaf_hits, app_nil_r. reflexivity.
      * eexists; simpl; apply Permutation_refl.
    + eexists; simpl; apply Permutation_refl.
  - assert (G : exists pruned,
               Permutation
                 (flat_map (fun e => walk (snd e) []) es ++ pruned)
                 (hits (flat_map (fun e => leaf_points (snd e)) es))).
    { induction es as [| e es IHes]; simpl.
      - exists []. reflexivity.
      - inversion IH as [| e' es' (p1 & P1) HF]; subst.
        destruct (IHes HF) as (p2 & P2).
        exists (p1 ++ p2). rewrite square_hits_app, <- P1, <- P2.
        rewrite <- !app_assoc. apply Permutation_app_head.
        rewrite !app_assoc. apply Permutation_app_tail.
        apply Permutation_app_comm. }
    simpl. destruct m as [mbr |].
    + destruct (intersects_square _ _ _ _ _); simpl.
      * rewrite walk_children
          by (apply Forall_forall; intros; apply walk_appends).
        exact G.
      * eexists; simpl; apply Permutation_refl.
    + eexists; simpl; apply Permutation_refl.
Qed.

End SubmultisetFacts.

(** X9.  [search_square] has no false positives and no duplicates of
    its own: for [max_entries >= 1], whatever it returns on a tree built
    by insertions is part of what the brute-force scan returns on the
    inserted points; together with the pairs it missed, its result is a
    rearrangement of the scan's result. *)
Theorem search_result_is_part_of_scan :
  forall (F : Num) (M : Math F) (max_entries : Z) (points : list Point)
         (center : Point) (radius_km : float),
    (1 <= max_entries)%Z ->
    exists self : RTree,
      insert_all (RTree__init__ max_entries) points = Ok self
      /\ forall results,
           search_square self center radius_km = Ok results ->
           exists missed,
             Permutation (results ++ missed)
                         (linear_scan points center radius_km).
Proof.
  intros F M max_entries points center radius_km HM.
  destruct (insert_all_uniform points (RTree__init__ max_entries) 0)
    as (self & h & E & _); [constructor |].
  exists self. split; [exact E |].
  intros results H. apply search_square_Ok in H. subst results.
  pose proof (insert_all_points points (RTree__init__ max_entries) self HM E)
    as P.
  simpl in P.
  destruct (walk_part_of_hits (lat center) (lon center)
              (half_side_lat_of radius_km)
              (half_side_lon_of center radius_km) center (root self))
    as (pruned & Hw).
  set (within := fun pd : Point * float => fle (snd pd) radius_km).
  set (insq := fun point =>
                 in_square point (lat center) (lon center)
                   (half_side_lat_of radius_km)
                   (half_side_lon_of center radius_km)).
  set (dist := fun point : Point => (point, distance_to center point)).
  exists (filter within
            (pruned ++ map dist (filter (fun p => negb (insq p)) points))).
  unfold linear_scan. fold dist. fold within.
  rewrite !sort_by_distance_perm.
  rewrite <- filter_app, app_assoc.
  apply filter_Permutation.
  rewrite Hw. unfold square_hits. fold dist. fold insq.
  rewrite <- map_app. apply Permutation_map.
  rewrite (filter_Permutation insq _ _ P).
  apply filter_split_Permutation.
Qed.

Lemma search_result_is_part_of_scan_witness :
  exists self : RTree,
    insert_all (RTree__init__ 5) two_real_stations = Ok self
    /\ forall results,
         search_square self (rstation 10 106) 1%R = Ok results ->
         exists missed,
           Permutation (results ++ missed)
                       (linear_scan two_real_stations (rstation 10 106) 1%R).
Proof.
  apply (search_result_is_part_of_scan RNum RMath 5 two_real_stations
           (rstation 10 106) 1%R).
  lia.
Defined.

(** ** The haversine distance on the reals *)

Lemma atan_nonneg (y : R) : (0 <= y)%R -> (0 <= atan y)%R.
Proof.
  intros [H | <-].
  - pose proof (atan_increasing 0 y H) as Hi. rewrite atan_0 in Hi. lra.
  - rewrite atan_0. lra.
Qed.

Lemma asin_nonneg (x : R) : (0 <= x)%R -> (0 <= asin x)%R.
Proof.
  intros Hx. unfold asin.
  destruct (Rle_dec x (-1)); [lra |].
  destruct (Rle_dec 1 x); [pose proof PI_RGT_0; lra |].
  apply atan_nonneg.
  assert (Hs : (0 < sqrt (1 - x²))%R).
  { apply sqrt_lt_R0. unfold Rsqr. nra. }
  apply Rmult_le_pos; [exact Hx |].
  apply Rlt_le. apply Rinv_0_lt_compat. exact Hs.
Qed.

(** X10.  On the reals [Point.distance_to] is zero from a point to
    itself, does not depend on which of the two points is the receiver,
    and lies between 0 and half the circumference of the Earth,
    [6371 * pi] km. *)
Theorem haversine_distance_properties :
  forall p q : @Point RNum,
    distance_to p p = 0%R
    /\ distance_to p q = distance_to q p
    /\ (0 <= distance_to p q <= 6371 * PI)%R.
Proof.
  intros p q. split; [apply distance_to_self |].
  split; [apply distance_to_sym |].
  unfold distance_to. simpl.
  set (a := (_ + _)%R).
  pose proof (asin_bound (sqrt a)) as B.
  pose proof (asin_nonneg (sqrt a) (sqrt_pos a)) as N.
  lra.
Qed.

(** The quantity under the square roots lies between 0 and 1 when both
    latitudes are between -90 and 90 degrees. *)
Lemma haversine_argument_bounds (lat1 lon1 lat2 lon2 : R) :
  (-90 <= lat1 <= 90)%R -> (-90 <= lat2 <= 90)%R ->
  let a := (sin ((lat2 * PI / 180 - lat1 * PI / 180) / 2)
            * sin ((lat2 * PI / 180 - lat1 * PI / 180) / 2)
            + cos (lat1 * PI / 180) * cos (lat2 * PI / 180)
              * (sin ((lon2 * PI / 180 - lon1 * PI / 180) / 2)
                 * sin ((lon2 * PI / 180 - lon1 * PI / 180) / 2)))%R in
  (0 <= a <= 1)%R.
Proof.
  intros H1 H2. pose proof PI_RGT_0 as Hpi.
  set (u := (lat1 * PI / 180)%R). set (v := (lat2 * PI / 180)%R).
  assert (Hu : (- (PI / 2) <= u <= PI / 2)%R) by (unfold u; nra).
  assert (Hv : (- (PI / 2) <= v <= PI / 2)%R) by (unfold v; nra).
  assert (Cu : (0 <= cos u)%R) by (apply cos_ge_0; lra).
  assert (Cv : (0 <= cos v)%R) by (apply cos_ge_0; lra).
  set (x := ((v - u) / 2)%R). set (y := ((u + v) / 2)%R).
  set (t := sin ((lon2 * PI / 180 - lon1 * PI / 180) / 2)).
  assert (Ht : (t * t <= 1)%R).
  { pose proof (sin2_cos2 ((lon2 * PI / 180 - lon1 * PI / 180) / 2)) as S.
    unfold Rsqr in S. fold t in S.
    pose proof (Rle_0_sqr (cos ((lon2 * PI / 180 - lon1 * PI / 180) / 2))) as Q.
    unfold Rsqr in Q. lra. }
  assert (Huv : (cos u * cos v = cos y * cos y - sin x * sin x)%R).
  { replace u with (y - x)%R by (unfold x, y; lra).
    replace v with (y + x)%R by (unfold x, y; lra).
    rewrite cos_minus, cos_plus.
    pose proof (sin2_cos2 x) as Sx. pose proof (sin2_cos2 y) as Sy.
    unfold Rsqr in Sx, Sy. nra. }
  assert (Hy : (cos y * cos y <= 1)%R).
  { pose proof (sin2_cos2 y) as Sy. unfold Rsqr in Sy.
    pose proof (Rle_0_sqr (sin y)) as Q. unfold Rsqr in Q. lra. }
  simpl. fold u v. fold x. fold t.
  assert (Huv0 : (0 <= cos u * cos v)%R) by (apply Rmult_le_pos; assumption).
  split.
  - assert (0 <= sin x * sin x)%R by (apply Rle_0_sqr).
    assert (0 <= t * t)%R by (apply Rle_0_sqr).
    nra.
  - assert (0 <= t * t)%R by (apply Rle_0_sqr).
    nra.
Qed.

Lemma atan2_is_asin (a : R) :
  (0 <= a <= 1)%R ->
  math_atan2 (sqrt a) (sqrt (1 - a)) = asin (sqrt a).
Proof.
  intros [H0 H1]. destruct (Req_dec_T a 1) as [-> | Hne].
  - replace (1 - 1)%R with 0%R by lra.
    rewrite sqrt_0, sqrt_1, asin_1. unfold math_atan2.
    destruct (Rlt_dec 0 0); [lra |].
    destruct (Rlt_dec 0 1); [reflexivity | lra].
  - assert (Hlt : (0 < 1 - a)%R) by lra.
    assert (Hs : (0 < sqrt (1 - a))%R) by (apply sqrt_lt_R0; exact Hlt).
    unfold math_atan2. destruct (Rlt_dec 0 (sqrt (1 - a))); [| lra].
    assert (Hq : (sqrt a * sqrt a = a)%R) by (apply sqrt_sqrt; exact H0).
    assert (Hp : (0 <= sqrt a)%R) by apply sqrt_pos.
    rewrite asin_atan by nra.
    unfold Rsqr. rewrite Hq. reflexivity.
Qed.

Lemma distance_km_in_range (lat1 lon1 lat2 lon2 : R) :
  let a := (sin ((lat2 * PI / 180 - lat1 * PI / 180) / 2)
            * sin ((lat2 * PI / 180 - lat1 * PI / 180) / 2)
            + cos (lat1 * PI / 180) * cos (lat2 * PI / 180)
              * (sin ((lon2 * PI / 180 - lon1 * PI / 180) / 2)
                 * sin ((lon2 * PI / 180 - lon1 * PI / 180) / 2)))%R in
  (0 <= a <= 1)%R ->
  distance_km lat1 lon1 lat2 lon2 = Ok (6371 * (2 * asin (sqrt a)))%R.
Proof.
  intros a Ha. unfold distance_km. fold a.
  unfold math_sqrt_checked.
  destruct (Rlt_dec a 0); [lra |]. simpl.
  destruct (Rlt_dec (1 - a) 0); [lra |]. simpl.
  rewrite atan2_is_asin by exact Ha. reflexivity.
Qed.

(** X11.  [distance_km] of [linear_search.py], written with [atan2],
    and [Point.distance_to], written with [asin], compute the same
    distance whenever both latitudes are valid (between -90 and 90
    degrees); [distance_km] then raises no [ValueError]. *)
Theorem distance_km_is_distance_to :
  forall center point : @Point RNum,
    (-90 <= lat center <= 90)%R -> (-90 <= lat point <= 90)%R ->
    distance_km (lat center) (lon center) (lat point) (lon point)
    = Ok (distance_to center point).
Proof.
  intros center point Hc Hp.
  rewrite distance_km_in_range.
  - unfold distance_to. simpl. reflexivity.
  - apply haversine_argument_bounds; assumption.
Qed.

Lemma distance_km_is_distance_to_witness :
  distance_km (lat west_of_antimeridian) (lon west_of_antimeridian)
              (lat east_of_antimeridian) (lon east_of_antimeridian)
  = Ok (distance_to west_of_antimeridian east_of_antimeridian).
Proof.
  apply (distance_km_is_distance_to west_of_antimeridian
           east_of_antimeridian); simpl; lra.
Defined.




(** X13.  On the reals a negative radius finds nothing: the square of
    the query has its lower latitude bound above its upper one, no point
    lies in it, and [search_square] returns the empty list on every tree
    (or raises [ZeroDivisionError] for a centre at a pole). *)
Theorem negative_radius_finds_nothing :
  forall (self : @RTree RNum) (center : @Point RNum) (radius_km : R),
    (radius_km < 0)%R ->
    search_square self center radius_km = Ok []
    \/ search_square self center radius_km = Raise ZeroDivisionError.
Proof.
  intros self center r Hr. unfold search_square.
  destruct (feq _ _); [right; reflexivity | left].
  assert (W : _search_square_recursive (root self) (lat center) (lon center)
                (fdiv r (fconst 111))
                (fdiv r (fmul (fconst 111)
                              (math_cos (math_radians (lat center)))))
                center [] = []).
  { destruct (_search_square_recursive _ _ _ _ _ _ _) as [| pd l] eqn:E;
      [reflexivity |].
    exfalso.
    assert (Hin : In pd (pd :: l)) by (left; reflexivity).
    rewrite <- E in Hin. apply walk_sound in Hin.
    destruct Hin as (_ & Hs & _).
    unfold in_square in Hs. simpl in Hs.
    rewrite !andb_true_iff in Hs. destruct Hs as [[A B] _].
    apply Rle_bool_iff in A, B. lra. }
  rewrite W. reflexivity.
Qed.

Lemma negative_radius_finds_nothing_witness :
  search_square (RTree__init__ 5) (rstation 0 0) (-1)%R = Ok []
  \/ search_square (RTree__init__ 5) (rstation 0 0) (-1)%R
     = Raise ZeroDivisionError.
Proof.
  apply (negative_radius_finds_nothing (RTree__init__ 5) (rstation 0 0)
           (-1)%R).
  lra.
Defined.

(** ** Enlargement on the reals *)

Lemma Rpy_min_spec (a b : R) :
  (@py_min RNum a b <= a)%R /\ (@py_min RNum a b <= b)%R.
Proof.
  unfold py_min. simpl. unfold Rlt_bool.
  destruct (Rlt_dec b a); lra.
Qed.

Lemma Rpy_max_spec (a b : R) :
  (a <= @py_max RNum a b)%R /\ (b <= @py_max RNum a b)%R.
Proof.
  unfold py_max. simpl. unfold Rlt_bool.
  destruct (Rlt_dec a b); lra.
Qed.

(** X14.  On the reals the area enlargement that [_choose_leaf] and
    [_split_node] compare is never negative for a well-formed rectangle,
    and it is zero when the rectangle already encloses the one to be
    taken in. *)
Theorem enlargement_is_not_negative :
  forall entry_mbr mbr : @MBR RNum,
    well_formed entry_mbr = true ->
    (0 <= enlargement entry_mbr mbr)%R
    /\ (encloses entry_mbr mbr = true -> enlargement entry_mbr mbr = 0%R).
Proof.
  intros e m Hwf. unfold well_formed in Hwf. simpl in Hwf.
  apply andb_true_iff in Hwf. destruct Hwf as [W1 W2].
  apply Rle_bool_iff in W1, W2.
  split.
  - unfold enlargement, area. simpl.
    destruct (Rpy_min_spec (min_lat e) (min_lat m)) as [A1 _].
    destruct (Rpy_max_spec (max_lat e) (max_lat m)) as [A2 _].
    destruct (Rpy_min_spec (min_lon e) (min_lon m)) as [A3 _].
    destruct (Rpy_max_spec (max_lon e) (max_lon m)) as [A4 _].
    nra.
  - intros He. unfold encloses in He. simpl in He.
    rewrite !andb_true_iff in He. destruct He as [[E1 E2] [E3 E4]].
    apply Rle_bool_iff in E1, E2, E3, E4.
    unfold enlargement, area, expand_to_include_mbr, py_min, py_max.
    simpl. unfold Rlt_bool.
    destruct (Rlt_dec (min_lat m) (min_lat e)); [lra |].
    destruct (Rlt_dec (max_lat e) (max_lat m)); [lra |].
    destruct (Rlt_dec (min_lon m) (min_lon e)); [lra |].
    destruct (Rlt_dec (max_lon e) (max_lon m)); [lra |].
    lra.
Qed.

Lemma enlargement_is_not_negative_witness :
  (0 <= enlargement (rbox 0 4 0 4) (rbox 1 1 1 1))%R
  /\ (encloses (rbox 0 4 0 4) (rbox 1 1 1 1) = true ->
      enlargement (rbox 0 4 0 4) (rbox 1 1 1 1) = 0%R).
Proof.
  apply (enlargement_is_not_negative (rbox 0 4 0 4) (rbox 1 1 1 1)).
  unfold well_formed. simpl.
  rewrite !Rle_bool_true by lra. reflexivity.
Defined.

(** ** Height and counts *)

Section HeightFacts.

Context {F : Num}.

Lemma fold_max_constant {A : Type} (f : A -> nat) (k : nat) (l : list A) :
  l <> [] -> (forall x, In x l -> f x = k) ->
  fold_right Nat.max 0 (map f l) = k.
Proof.
  induction l as [| x l IH]; intros Hne Hf; [congruence |].
  simpl. rewrite (Hf x) by (left; reflexivity).
  destruct l as [| y l'].
  - simpl. lia.
  - rewrite IH; [lia | discriminate |].
    intros z Hz. apply Hf. right. exact Hz.
Qed.

Lemma uniform_height node :
  forall h, uniform h node -> _get_height_recursive node = S h.
Proof.
  induction node as [m es | m es IH] using RTreeNode_induction;
    intros h Hu.
  - inversion Hu; subst. reflexivity.
  - inversion Hu as [| h' m' es' Hne HF]; subst.
    destruct es as [| e es']; [congruence |].
    change (_get_height_recursive (Internal m (e :: es')))
      with (1 + fold_right Nat.max 0
                  (map (fun e => _get_height_recursive (snd e)) (e :: es'))).
    rewrite (fold_max_constant _ (S h')); [reflexivity | discriminate |].
    intros x Hx. rewrite Forall_forall in IH, HF. apply IH; auto.
Qed.

Lemma insert_all_uniform_height (points : list Point) :
  forall (self : RTree) h,
    uniform h (root self) ->
    exists self' h',
      insert_all self points = Ok self'
      /\ uniform h' (root self')
      /\ h <= h' <= h + length points.
Proof.
  induction points as [| p rest IH]; intros self h Hn; simpl.
  - exists self, h. repeat split; auto; lia.
  - destruct (insert_uniform self p h Hn) as (s1 & h1 & -> & U1 & Hh & _).
    simpl.
    destruct (IH s1 h1 U1) as (s2 & h2 & -> & U2 & Hb).
    exists s2, h2. repeat split; try assumption; lia.
Qed.

Lemma flat_map_length_bound {A B : Type} (f : A -> list B) (bound : Z)
  (l : list A) :
  (0 <= bound)%Z ->
  Forall (fun x => (Z.of_nat (length (f x)) <= bound)%Z) l ->
  (Z.of_nat (length (flat_map f l)) <= Z.of_nat (length l) * bound)%Z.
Proof.
  intros Hb. induction l as [| x l IH]; intros HF.
  - simpl. lia.
  - inversion HF; subst. specialize (IH H2).
    change (flat_map f (x :: l)) with (f x ++ flat_map f l).
    change (length (x :: l)) with (S (length l)).
    rewrite length_app, Nat2Z.inj_add, Nat2Z.inj_succ. nia.
Qed.

Lemma leaf_points_bound (M : Z) node :
  (0 <= M)%Z ->
  forall h,
    uniform h node ->
    every_node (within_capacity M) node = true ->
    (Z.of_nat (length (leaf_points node)) <= M ^ Z.of_nat (S h))%Z.
Proof.
  intros HM.
  induction node as [m es | m es IH] using RTreeNode_induction;
    intros h Hu Hb.
  - inversion Hu; subst. apply bounded_Leaf in Hb. simpl leaf_points.
    rewrite length_map. change (Z.of_nat 1) with 1%Z. rewrite Z.pow_1_r.
    exact Hb.
  - inversion Hu as [| h' m' es' Hne HF]; subst.
    apply bounded_Internal in Hb. destruct Hb as [Hlen Hch].
    simpl leaf_points.
    assert (Hp : (0 <= M ^ Z.of_nat (S h'))%Z) by (apply Z.pow_nonneg; lia).
    pose proof (flat_map_length_bound (fun e => leaf_points (snd e))
                  (M ^ Z.of_nat (S h')) es Hp) as G.
    rewrite Nat2Z.inj_succ, Z.pow_succ_r by lia.
    rewrite Nat2Z.inj_succ in G.
    assert (HG : Forall (fun x => (Z.of_nat (length (leaf_points (snd x)))
                                   <= M ^ Z.succ (Z.of_nat h'))%Z) es).
    { rewrite Forall_forall in *. intros e He.
      specialize (IH e He h' (HF e He) (Hch e He)).
      rewrite Nat2Z.inj_succ in IH. exact IH. }
    specialize (G HG). rewrite Nat2Z.inj_succ. nia.
Qed.

Lemma leaf_points_per_leaf (M : Z) node :
  (0 <= M)%Z ->
  every_node (within_capacity M) node = true ->
  (Z.of_nat (length (leaf_points node))
   <= M * Z.of_nat (length (leaf_depths node)))%Z.
Proof.
  intros HM.
  induction node as [m es | m es IH] using RTreeNode_induction; intros Hb.
  - apply bounded_Leaf in Hb. simpl. rewrite length_map. lia.
  - apply bounded_Internal in Hb. destruct Hb as [_ Hch].
    simpl. rewrite length_map.
    induction es as [| e es IHes]; simpl; [lia |].
    inversion IH; subst. inversion Hch; subst.
    rewrite !length_app. specialize (IHes H2 H4). specialize (H1 H3).
    lia.
Qed.

Lemma uniform_has_leaf node :
  forall h, uniform h node -> 1 <= length (leaf_depths node).
Proof.
  induction node as [m es | m es IH] using RTreeNode_induction;
    intros h Hu.
  - simpl. lia.
  - inversion Hu as [| h' m' es' Hne HF]; subst.
    simpl. rewrite length_map.
    destruct es as [| e es']; [congruence |].
    simpl. rewrite length_app.
    inversion IH; subst. inversion HF; subst.
    specialize (H1 h' H3). lia.
Qed.

Lemma _count_recursive_leaf node :
  forall c,
    leaf (_count_recursive node c) = leaf c + length (leaf_depths node).
Proof.
  induction node as [m es | m es IH] using RTreeNode_induction; intros c.
  - reflexivity.
  - simpl. rewrite length_map.
    set (c0 := {| leaf := leaf c; internal := internal c + 1;
                  total_entries := total_entries c |}).
    change (leaf c) with (leaf c0).
    generalize c0. clear c0.
    induction es as [| e es IHes]; intros c0; simpl.
    + lia.
    + inversion IH; subst.
      rewrite IHes by assumption. rewrite H1, length_app. lia.
Qed.

Lemma _count_recursive_internal node :
  forall c,
    internal c <= internal (_count_recursive node c)
    /\ (is_leaf node = true ->
        internal (_count_recursive node c) = internal c)
    /\ (is_leaf node = false ->
        internal c < internal (_count_recursive node c)).
Proof.
  induction node as [m es | m es IH] using RTreeNode_induction; intros c.
  - simpl. repeat split; auto; discriminate.
  - simpl.
    set (c0 := {| leaf := leaf c; internal := internal c + 1;
                  total_entries := total_entries c |}).
    assert (G : forall c1,
               internal c1
               <= internal (fold_left (fun c e => _count_recursive (snd e) c)
                                      es c1)).
    { induction es as [| e es IHes]; intros c1; simpl; [lia |].
      inversion IH; subst.
      specialize (IHes H2 (_count_recursive (snd e) c1)).
      destruct (H1 c1) as [Hle _]. lia. }
    specialize (G c0). simpl in G.
    repeat split; try discriminate; intros; lia.
Qed.

End HeightFacts.

(** X15.  In a tree built by insertions [get_height] is one more than
    the depth at which all its leaves lie.  It is at least 1, at most one
    more than the number of points inserted, and an insertion leaves it
    as it is or adds one. *)
Theorem get_height_is_leaf_depth_plus_one :
  forall (F : Num) (max_entries : Z) (points : list Point) (point : Point),
  exists self self' : RTree,
    insert_all (RTree__init__ max_entries) points = Ok self
    /\ insert self point = Ok self'
    /\ (forall d, In d (leaf_depths (root self)) -> get_height self = S d)
    /\ 1 <= get_height self <= S (length points)
    /\ (get_height self' = get_height self
        \/ get_height self' = S (get_height self)).
Proof.
  intros F max_entries points point.
  destruct (insert_all_uniform_height points (RTree__init__ max_entries) 0)
    as (self & h & E & U & Hh); [constructor |].
  destruct (insert_uniform self point h U) as (self' & h' & E' & U' & Hh' & _).
  exists self, self'. split; [exact E |]. split; [exact E' |].
  unfold get_height.
  rewrite (uniform_height _ _ U), (uniform_height _ _ U').
  split; [| split].
  - intros d Hd. f_equal. symmetry.
    apply (uniform_leaf_depths _ _ U). exact Hd.
  - lia.
  - destruct Hh' as [-> | ->]; auto.
Qed.

(** X16.  With [max_entries >= 2], a tree built by insertions holds at
    most [max_entries ^ height] points: the height reported by
    [get_height] is at least the logarithm of the number of points to the
    base [max_entries]. *)
Theorem points_at_most_capacity_to_the_height :
  forall (F : Num) (M : Z) (points : list Point),
    (2 <= M)%Z ->
    exists self : RTree,
      insert_all (RTree__init__ M) points = Ok self
      /\ (Z.of_nat (length points) <= M ^ Z.of_nat (get_height self))%Z.
Proof.
  intros F M points HM.
  destruct (insert_all_uniform points (RTree__init__ M) 0)
    as (self & h & E & U & _); [constructor |].
  exists self. split; [exact E |].
  destruct (insert_all_bounded points (RTree__init__ M) self) as [B _];
    [exact HM | apply bounded_Leaf; simpl; lia | exact E |].
  simpl in B.
  pose proof (insert_all_points points (RTree__init__ M) self) as P.
  simpl in P. specialize (P ltac:(lia) E).
  apply Permutation_length in P. rewrite <- P.
  unfold get_height. rewrite (uniform_height _ _ U).
  apply leaf_points_bound; [lia | exact U | exact B].
Qed.

Lemma points_at_most_capacity_to_the_height_witness :
  exists self : RTree,
    insert_all (RTree__init__ 5) seven_stations = Ok self
    /\ (Z.of_nat (length seven_stations) <= 5 ^ Z.of_nat (get_height self))%Z.
Proof.
  apply (points_at_most_capacity_to_the_height QNum 5 seven_stations). lia.
Defined.

(** X17.  With [max_entries >= 2], on a tree built by insertions
    [count_nodes] reports as [leaf] the number of leaves, which is at
    least 1; [total_entries] is at most [max_entries] times [leaf]; and
    [internal] is 0 exactly when the root is still a leaf, that is when
    [get_height] is 1. *)
Theorem count_nodes_on_built_tree :
  forall (F : Num) (M : Z) (points : list Point),
    (2 <= M)%Z ->
    exists self : RTree,
      insert_all (RTree__init__ M) points = Ok self
      /\ leaf (count_nodes self) = length (leaf_depths (root self))
      /\ 1 <= leaf (count_nodes self)
      /\ (Z.of_nat (total_entries (count_nodes self))
          <= M * Z.of_nat (leaf (count_nodes self)))%Z
      /\ (internal (count_nodes self) = 0 <-> get_height self = 1).
Proof.
  intros F M points HM.
  destruct (insert_all_uniform points (RTree__init__ M) 0)
    as (self & h & E & U & _); [constructor |].
  exists self. split; [exact E |].
  destruct (insert_all_bounded points (RTree__init__ M) self) as [B _];
    [exact HM | apply bounded_Leaf; simpl; lia | exact E |].
  simpl in B.
  unfold count_nodes.
  rewrite _count_recursive_leaf, _count_recursive_total. simpl.
  split; [reflexivity |].
  split; [apply (uniform_has_leaf _ _ U) |].
  split; [apply leaf_points_per_leaf; [lia | exact B] |].
  unfold get_height. rewrite (uniform_height _ _ U).
  destruct (_count_recursive_internal (root self)
              {| leaf := 0; internal := 0; total_entries := 0 |})
    as (_ & Hl & Hi).
  simpl in Hl, Hi.
  destruct (root self) as [m es | m es] eqn:R; simpl in *.
  - inversion U; subst. split; auto.
  - inversion U; subst. specialize (Hi eq_refl). split; intros; lia.
Qed.

Lemma count_nodes_on_built_tree_witness :
  exists self : RTree,
    insert_all (RTree__init__ 5) seven_stations = Ok self
    /\ leaf (count_nodes self) = length (leaf_depths (root self))
    /\ 1 <= leaf (count_nodes self)
    /\ (Z.of_nat (total_entries (count_nodes self))
        <= 5 * Z.of_nat (leaf (count_nodes self)))%Z
    /\ (internal (count_nodes self) = 0 <-> get_height self = 1).
Proof.
  apply (count_nodes_on_built_tree QNum 5 seven_stations). lia.
Defined.

(** ** Splits, whatever the capacity *)

Section SplitAnyFacts.

Context {F : Num}.







End SplitAnyFacts.

(** X18.  [_split_node] on a node without entries raises [ValueError]
    (the [min] of an empty sequence).  On a node with entries it returns
    two nodes of the kind of the node, each with at least one entry and
    with its rectangle recomputed.  Two or more entries are shared out:
    the halves hold together what the node held, nothing twice.  A
    single entry goes to both halves. *)
Theorem _split_node_shares_out_the_entries :
  forall (F : Num) (node : RTreeNode),
    (entry_count node = 0 -> _split_node node = Raise ValueError)
    /\ (1 <= entry_count node ->
        exists node1 node2,
          _split_node node = Ok (node1, node2)
          /\ is_leaf node1 = is_leaf node /\ is_leaf node2 = is_leaf node
          /\ mbr_is_union node1 /\ mbr_is_union node2
          /\ 1 <= entry_count node1 /\ 1 <= entry_count node2
          /\ (2 <= entry_count node ->
              entry_count node1 + entry_count node2 = entry_count node
              /\ Permutation (leaf_points node1 ++ leaf_points node2)
                             (leaf_points node))
          /\ (entry_count node = 1 ->
              entry_count node1 = 1 /\ entry_count node2 = 1
              /\ leaf_points node1 = leaf_points node
              /\ leaf_points node2 = leaf_points node)).
Proof.
  intros F node. split.
  - destruct node as [m [| e es] | m [| e es]]; simpl; intros H;
      try discriminate; reflexivity.
  - intros Hc.
    destruct (_split_node_spec node Hc)
      as (n1 & n2 & m1 & m2 & E & _ & _ & _).
    exists n1, n2. split; [exact E |].
    pose proof (_split_node_points node n1 n2) as PP.
    destruct (_split_node_halves _ _ _ E)
      as [(m & es & e1 & e2 & -> & Es & -> & ->)
         | (m & es & e1 & e2 & -> & Es & -> & ->)];
      simpl in Hc;
      (assert (R : split_rel es e1 e2)
        by (apply split_entries_split_rel;
            [destruct es; simpl in Hc; [lia | discriminate] | exact Es]));
      pose proof R as (_ & N1 & N2 & _ & Single);
      (split; [reflexivity |]); (split; [reflexivity |]);
      (split; [reflexivity |]); (split; [reflexivity |]);
      (split; [destruct e1; [congruence | simpl; lia] |]);
      (split; [destruct e2; [congruence | simpl; lia] |]);
      (split;
       [ intros H2; split;
         [ apply (split_rel_length _ _ _ R H2) | apply PP; [exact H2 | exact E] ]
       | simpl; intros H1; destruct es as [| a [| b l]]; simpl in H1;
         try discriminate; destruct (Single a eq_refl) as [-> ->];
         repeat split; reflexivity ]).
Qed.


(** ** A wider square collects more *)

Section WiderSquareFacts.

Lemma filter_weaken {A : Type} (f1 f2 : A -> bool) (l : list A) :
  (forall x, f1 x = true -> f2 x = true) ->
  Permutation (filter f1 l ++ filter (fun x => f2 x && negb (f1 x)) l)
              (filter f2 l).
Proof.
  intros H. induction l as [| x l IH]; simpl; [constructor |].
  destruct (f1 x) eqn:E1.
  - rewrite (H x E1). simpl. constructor. exact IH.
  - destruct (f2 x); simpl; [| exact IH].
    rewrite <- Permutation_middle. constructor. exact IH.
Qed.

Context {F : Num} {M : Math F} {O : NumOrder F}.

Variables center_lat center_lon : float.
Variables near_lat near_lon wide_lat wide_lon : float.
Variable center_point : Point.

Hypothesis lat_low :
  fle (fsub center_lat wide_lat) (fsub center_lat near_lat) = true.
Hypothesis lat_high :
  fle (fadd center_lat near_lat) (fadd center_lat wide_lat) = true.
Hypothesis lon_low :
  fle (fsub center_lon wide_lon) (fsub center_lon near_lon) = true.
Hypothesis lon_high :
  fle (fadd center_lon near_lon) (fadd center_lon wide_lon) = true.

Lemma in_square_wider point :
  in_square point center_lat center_lon near_lat near_lon = true ->
  in_square point center_lat center_lon wide_lat wide_lon = true.
Proof.
  unfold in_square. rewrite !andb_true_iff.
  intros [[A1 A2] [A3 A4]].
  repeat split; eapply fle_trans; eassumption.
Qed.

Lemma intersects_square_wider mbr :
  intersects_square mbr center_lat center_lon near_lat near_lon = true ->
  intersects_square mbr center_lat center_lon wide_lat wide_lon = true.
Proof.
  unfold intersects_square. intros H.
  destruct (flt (max_lat mbr) (fsub center_lat near_lat)) eqn:E1;
    [discriminate |].
  destruct (flt (fadd center_lat near_lat) (min_lat mbr)) eqn:E2;
    [discriminate |].
  destruct (flt (max_lon mbr) (fsub center_lon near_lon)) eqn:E3;
    [discriminate |].
  destruct (flt (fadd center_lon near_lon) (min_lon mbr)) eqn:E4;
    [discriminate |].
  apply flt_false_fle in E1, E2, E3, E4.
  rewrite (proj2 (flt_false_fle _ _) (fle_trans _ _ _ lat_low E1)).
  rewrite (proj2 (flt_false_fle _ _) (fle_trans _ _ _ E2 lat_high)).
  rewrite (proj2 (flt_false_fle _ _) (fle_trans _ _ _ lon_low E3)).
  rewrite (proj2 (flt_false_fle _ _) (fle_trans _ _ _ E4 lon_high)).
  reflexivity.
Qed.

Lemma square_hits_wider points :
  exists more,
    Permutation
      (square_hits points center_lat center_lon near_lat near_lon
                   center_point ++ more)
      (square_hits points center_lat center_lon wide_lat wide_lon
                   center_point).
Proof.
  unfold square_hits. eexists. rewrite <- map_app.
  apply Permutation_map. apply filter_weaken. apply in_square_wider.
Qed.

Lemma walk_wider node :
  exists more,
    Permutation
      (_search_square_recursive node center_lat center_lon near_lat near_lon
         center_point [] ++ more)
      (_search_square_recursive node center_lat center_lon wide_lat wide_lon
         center_point []).
Proof.
  induction node as [m es | m es IH] using RTreeNode_induction.
  - simpl. destruct m as [mbr |]; [| exists []; reflexivity].
    destruct (intersects_square mbr center_lat center_lon near_lat near_lon)
      eqn:E; simpl.
    + rewrite (intersects_square_wider _ E). simpl.
      rewrite !scan_leaf_hits. simpl. apply square_hits_wider.
    + eexists. simpl. apply Permutation_refl.
  - simpl. destruct m as [mbr |]; [| exists []; reflexivity].
    destruct (intersects_square mbr center_lat center_lon near_lat near_lon)
      eqn:E; simpl.
    + rewrite (intersects_square_wider _ E). simpl.
      rewrite !walk_children
        by (apply Forall_forall; intros; apply walk_appends).
      simpl. clear E.
      induction es as [| e es IHes]; simpl.
      * exists []. reflexivity.
      * inversion IH as [| e' es' (m1 & P1) HF]; subst.
        destruct (IHes HF) as (m2 & P2).
        exists (m1 ++ m2). rewrite <- P1, <- P2.
        rewrite <- !app_assoc. apply Permutation_app_head.
        rewrite !app_assoc. apply Permutation_app_tail.
        apply Permutation_app_comm.
    + eexists. simpl. apply Permutation_refl.
Qed.

End WiderSquareFacts.

(** X20.  On the reals, for a centre strictly between the poles,
    enlarging the radius never loses a result: what [search_square]
    returns for a radius [0 <= r1] is part of what it returns for any
    [r2 >= r1] on the same tree, stale rectangles or not. *)
Theorem larger_radius_keeps_results :
  forall (self : @RTree RNum) (center : @Point RNum) (r1 r2 : R),
    (-90 < lat center < 90)%R -> (0 <= r1 <= r2)%R ->
    exists results1 results2 more,
      search_square self center r1 = Ok results1
      /\ search_square self center r2 = Ok results2
      /\ Permutation (results1 ++ more) results2.
Proof.
  intros self c r1 r2 Hlat Hr.
  pose proof PI_RGT_0 as Hpi.
  assert (Hcos : (0 < cos (lat c * PI / 180))%R)
    by (apply cos_gt_0; nra).
  assert (Hd : feq (fmul (fconst 111) (math_cos (math_radians (lat c))))
                   (fconst 0) = false)
    by (simpl; apply Req_bool_false; nra).
  assert (Hinv : (0 < / (111 * cos (lat c * PI / 180)))%R)
    by (apply Rinv_0_lt_compat; nra).
  assert (B1 : @fle RNum (fsub (lat c) (half_side_lat_of r2))
                         (fsub (lat c) (half_side_lat_of r1)) = true)
    by (apply Rle_bool_iff; unfold half_side_lat_of; simpl; lra).
  assert (B2 : @fle RNum (fadd (lat c) (half_side_lat_of r1))
                         (fadd (lat c) (half_side_lat_of r2)) = true)
    by (apply Rle_bool_iff; unfold half_side_lat_of; simpl; lra).
  assert (B3 : @fle RNum (fsub (lon c) (half_side_lon_of c r2))
                         (fsub (lon c) (half_side_lon_of c r1)) = true)
    by (apply Rle_bool_iff; unfold half_side_lon_of; simpl;
        unfold Rdiv; nra).
  assert (B4 : @fle RNum (fadd (lon c) (half_side_lon_of c r1))
                         (fadd (lon c) (half_side_lon_of c r2)) = true)
    by (apply Rle_bool_iff; unfold half_side_lon_of; simpl;
        unfold Rdiv; nra).
  destruct (@walk_wider RNum RMath RNumOrder (lat c) (lon c)
              (@half_side_lat_of RNum r1) (@half_side_lon_of RNum RMath c r1)
              (@half_side_lat_of RNum r2) (@half_side_lon_of RNum RMath c r2)
              c B1 B2 B3 B4 (root self)) as (more & Hw).
  set (W1 := _search_square_recursive (root self) (lat c) (lon c)
               (@half_side_lat_of RNum r1) (@half_side_lon_of RNum RMath c r1)
               c []) in *.
  set (W2 := _search_square_recursive (root self) (lat c) (lon c)
               (@half_side_lat_of RNum r2) (@half_side_lon_of RNum RMath c r2)
               c []) in *.
  set (within1 := fun pd : @Point RNum * @float RNum => @fle RNum (snd pd) r1).
  set (within2 := fun pd : @Point RNum * @float RNum => @fle RNum (snd pd) r2).
  exists (sort_by_distance (filter within1 W1)),
         (sort_by_distance (filter within2 W2)),
         (filter (fun pd => within2 pd && negb (within1 pd)) W1
          ++ filter within2 more).
  split; [apply search_square_defined; exact Hd |].
  split; [apply search_square_defined; exact Hd |].
  rewrite !sort_by_distance_perm.
  rewrite <- (filter_Permutation within2 _ _ Hw), filter_app, app_assoc.
  apply Permutation_app_tail. apply filter_weaken.
  intros pd. unfold within1, within2. simpl.
  rewrite !Rle_bool_iff. lra.
Qed.

Lemma larger_radius_keeps_results_witness :
  exists results1 results2 more,
    search_square (RTree__init__ 5) (rstation 0 0) 1%R = Ok results1
    /\ search_square (RTree__init__ 5) (rstation 0 0) 2%R = Ok results2
    /\ Permutation (results1 ++ more) results2.
Proof.
  apply (larger_radius_keeps_results (RTree__init__ 5) (rstation 0 0)
           1%R 2%R); simpl; lra.
Defined.
